(** * gildash: watcher ownership, parse API, pattern search and
    dependency graph.

    The first three are embedded from their TypeScript sources; the
    dependency graph follows the specification of its operations.

    JavaScript numbers that hold process ids, millisecond clocks and second
    counts are integers in every call the sources make; they are modelled
    as [Z].  [Math.floor (x / 1000)] on such an integer is [x / 1000] in [Z]
    (floor division for a positive divisor). *)

From Stdlib Require Import ZArith String List.
From stdpp Require Import gmap strings.

Local Open Scope string_scope.
Local Open Scope list_scope.
#[local] Set Warnings "-clear-no-such-hyp".

(** ** src/watcher/ownership.ts *)

Module Ownership.

(** [interface WatcherOwnerRow] *)
Record WatcherOwnerRow := {
  pid : Z;
  heartbeat_at : string;
  instance_id : option string;   (* string | null *)
}.

(** [type WatcherRole = "owner" | "reader"] *)
Inductive WatcherRole := owner | reader.

(** [interface WatcherOwnerStore]: the store is threaded explicitly; a
    method that mutates it returns the new store. *)
Class WatcherOwnerStore (S : Type) := {
  immediateTransaction : ∀ {T : Type}, (S → T * S) → S → T * S;
  selectOwner : S → option WatcherOwnerRow;
  insertOwner : Z → option string → S → S;
  replaceOwner : Z → option string → S → S;
  touchOwner : Z → S → S;
  deleteOwner : Z → S → S;
}.

(** [interface AcquireOptions]; [now] is the number the injected clock
    returns (the code calls it at most once). *)
Record AcquireOptions := {
  now : option Z;
  isAlive : option (Z → bool);
  staleAfterSeconds : option Z;
  instanceId : option string;
}.

(** What [process.kill(pid, 0)] does: it returns, or throws a value that
    may carry a [code] property. *)
Inductive KillResult :=
  | Signalled
  | Threw (code : option string).

(** The runtime the module reads: [Date.now()], [new Date().toISOString()],
    [new Date(value).getTime()] ([None] for NaN) and [process.kill]. *)
Class Runtime := {
  Date_now : Z;
  Date_toISOString : string;
  Date_getTime : string → option Z;
  process_kill : Z → KillResult;
}.

(** JavaScript truthiness of a [string | null | undefined]. *)
Definition truthy (s : option string) : bool :=
  match s with
  | Some s => negb (String.eqb s "")
  | None => false
  end.

(** [a !== b] for two values that are both strings when it is evaluated. *)
Definition strict_ne (a b : option string) : bool :=
  negb (bool_decide (a = b)).

Section WithRuntime.
Context {rt : Runtime}.

Definition defaultIsAlive (p : Z) : bool :=
  match process_kill p with
  | Signalled => true
  | Threw (Some code) => negb (String.eqb code "ESRCH")
  | Threw None => true
  end.

Definition toEpochMs (value : string) : Z :=
  match Date_getTime value with
  | Some ms => ms
  | None => 0%Z
  end.

(** [options.now ?? Date.now], [options.isAlive ?? defaultIsAlive],
    [options.staleAfterSeconds ?? 60]. *)
Definition nowOf (options : AcquireOptions) : Z :=
  default (Date_now) (now options).
Definition isAliveOf (options : AcquireOptions) : Z → bool :=
  default defaultIsAlive (isAlive options).
Definition staleOf (options : AcquireOptions) : Z :=
  default 60%Z (staleAfterSeconds options).

(** [Math.floor((now() - toEpochMs(owner.heartbeat_at)) / 1000)] *)
Definition heartbeatAgeSeconds (options : AcquireOptions) (o : WatcherOwnerRow) : Z :=
  ((nowOf options - toEpochMs (heartbeat_at o)) / 1000)%Z.

(** The condition of the PID-recycling branch (line 65). *)
Definition pidRecycled (options : AcquireOptions) (p : Z) (o : WatcherOwnerRow) : bool :=
  isAliveOf options (pid o)
  && truthy (instanceId options)
  && truthy (instance_id o)
  && strict_ne (instance_id o) (instanceId options)
  && negb (pid o =? p)%Z.

Definition acquireWatcherRole {S} `{WatcherOwnerStore S}
    (db : S) (p : Z) (options : AcquireOptions) : WatcherRole * S :=
  immediateTransaction (λ db,
    match selectOwner db with
    | None => (owner, insertOwner p (instanceId options) db)
    | Some o =>
        let age := heartbeatAgeSeconds options o in
        let pidAlive := isAliveOf options (pid o) in
        if pidRecycled options p o then
          (owner, replaceOwner p (instanceId options) db)
        else if pidAlive && (age <? staleOf options)%Z then
          (reader, db)
        else
          (owner, replaceOwner p (instanceId options) db)
    end) db.

Definition releaseWatcherRole {S} `{WatcherOwnerStore S} (db : S) (p : Z) : S :=
  deleteOwner p db.

Definition updateHeartbeat {S} `{WatcherOwnerStore S} (db : S) (p : Z) : S :=
  touchOwner p db.

(** The in-memory store of test/chaos.test.ts ([createFakeStore]): one
    optional row; every write stamps it with [new Date().toISOString()]. *)
Record FakeStore := { row : option WatcherOwnerRow }.

Definition stamped (p : Z) (i : option string) : WatcherOwnerRow :=
  {| pid := p; heartbeat_at := Date_toISOString; instance_id := i |}.

Instance fakeStore : WatcherOwnerStore FakeStore := {
  immediateTransaction T fn st := fn st;
  selectOwner st := row st;
  insertOwner p i st := {| row := Some (stamped p i) |};
  replaceOwner p i st := {| row := Some (stamped p i) |};
  touchOwner p st :=
    match row st with
    | Some o =>
        if (pid o =? p)%Z
        then {| row := Some {| pid := pid o; heartbeat_at := Date_toISOString;
                               instance_id := instance_id o |} |}
        else st
    | None => st
    end;
  deleteOwner p st :=
    match row st with
    | Some o => if (pid o =? p)%Z then {| row := None |} else st
    | None => st
    end;
}.

(** The rows of the [watcher_owner] table. *)
Definition rows (st : FakeStore) : list WatcherOwnerRow :=
  match row st with Some o => [o] | None => [] end.

End WithRuntime.

#[export] Existing Instance fakeStore.

End Ownership.


(** ** The parse API of the facade (parseSource, batchParse, getParsedAst) *)

Module ParseApi.

(** An [Error] object: a [GildashError] with its type tag, or another
    [Error] with its message. *)
Inductive JsError :=
  | GildashError (type message : string)
  | PlainError (message : string).

(** A thrown value: an [Error], or a value that is not one (kept as the
    text [String(e)] gives). *)
Inductive Thrown :=
  | ThrownError (e : JsError)
  | ThrownValue (text : string).

(** How a call or a promise completes. *)
Inductive Completion (A : Type) :=
  | Return (a : A)
  | Throw (t : Thrown).
Arguments Return {A} a.
Arguments Throw {A} t.

(** [Result<T, GildashError>] of @zipbul/result. *)
Inductive Result (T : Type) :=
  | Ok (value : T)
  | Err (data : JsError).
Arguments Ok {T} value.
Arguments Err {T} data.

Definition closedError : JsError :=
  GildashError "closed" "Gildash: instance is closed".

(** [e instanceof Error ? e : new Error(String(e))] *)
Definition asError (t : Thrown) : JsError :=
  match t with
  | ThrownError e => e
  | ThrownValue text => PlainError text
  end.

Section WithTypes.
(** [ParsedFile], [ParserOptions] and the LRU cache are used opaquely. *)
Context {ParsedFile ParserOptions Cache : Type}.
Variable cache_set : string → ParsedFile → Cache → Cache.
Variable cache_get : string → Cache → option ParsedFile * Cache.

(** The fields of [GildashContext] this file reads.  [readFileFn] gives how
    the promise for a path settles; both functions are taken to answer the
    same for the same arguments during one call. *)
Record GildashContext := {
  closed : bool;
  parseSourceFn : string → string → option ParserOptions → Completion (Result ParsedFile);
  readFileFn : string → Completion string;
  parseCache : Cache;
}.

Definition withCache (ctx : GildashContext) (c : Cache) : GildashContext :=
  {| closed := closed ctx; parseSourceFn := parseSourceFn ctx;
     readFileFn := readFileFn ctx; parseCache := c |}.

Definition parseSource (ctx : GildashContext) (filePath sourceText : string)
    (options : option ParserOptions) : Completion ParsedFile * GildashContext :=
  if closed ctx then (Throw (ThrownError closedError), ctx)
  else
    match parseSourceFn ctx filePath sourceText options with
    | Throw t => (Throw t, ctx)
    | Return (Err data) => (Throw (ThrownError data), ctx)
    | Return (Ok result) =>
        (Return result, withCache ctx (cache_set filePath result (parseCache ctx)))
    end.

(** [BatchParseResult] *)
Record BatchParseResult := {
  parsed : gmap string ParsedFile;
  failures : list (string * JsError);
}.

(** The body of the callback given to [filePaths.map], from the moment the
    read of [fp] settles. *)
Definition settle (ctx : GildashContext) (options : option ParserOptions)
    (acc : BatchParseResult) (fp : string) : BatchParseResult :=
  match readFileFn ctx fp with
  | Throw e =>
      {| parsed := parsed acc; failures := failures acc ++ [(fp, asError e)] |}
  | Return text =>
      match parseSourceFn ctx fp text options with
      | Return (Ok result) =>
          {| parsed := <[fp := result]> (parsed acc); failures := failures acc |}
      | Return (Err data) =>
          {| parsed := parsed acc; failures := failures acc ++ [(fp, data)] |}
      | Throw e =>
          {| parsed := parsed acc; failures := failures acc ++ [(fp, asError e)] |}
      end
  end.

(** [Promise.all] starts one read per path; the callbacks resume in the
    order the reads settle.  [settled] is that order, a permutation of
    [filePaths]. *)
Definition batchParse (ctx : GildashContext) (filePaths : list string)
    (options : option ParserOptions) (settled : list string) : Completion BatchParseResult :=
  if closed ctx then Throw (ThrownError closedError)
  else Return (foldl (settle ctx options) {| parsed := ∅; failures := [] |} settled).

(** What one file yields when read and parsed with the context's
    functions: the parsed file, or nothing when the read or the parse
    fails. *)
Definition parses (ctx : GildashContext) (options : option ParserOptions)
    (fp : string) : option ParsedFile :=
  match readFileFn ctx fp with
  | Return text =>
      match parseSourceFn ctx fp text options with
      | Return (Ok result) => Some result
      | _ => None
      end
  | Throw _ => None
  end.

Definition getParsedAst (ctx : GildashContext) (filePath : string)
    : Completion (option ParsedFile) * GildashContext :=
  if closed ctx then (Return None, ctx)
  else
    let '(r, c) := cache_get filePath (parseCache ctx) in
    (Return r, withCache ctx c).

End WithTypes.

End ParseApi.


(** ** src/search/pattern-search.ts *)

Module PatternSearch.

(** [interface PatternMatch] *)
Record PatternMatch := {
  filePath : string;
  startLine : Z;
  endLine : Z;
  matchedText : string;
}.

(** [interface PatternSearchOptions] *)
Record PatternSearchOptions := {
  pattern : string;
  filePaths : list string;
}.

(** What the callback reads of an ast-grep node: [node.range()] (0-based
    lines), [node.getRoot().filename()] and [node.text()]. *)
Record SgNode := {
  range_start_line : Z;
  range_end_line : Z;
  root_filename : string;
  text : string;
}.

(** One call of [findInFiles] as the engine sees it. *)
Record FindCall := {
  call_paths : list string;
  call_pattern : string;
}.

(** How the promise of a call settles. *)
Inductive Settled (A : Type) :=
  | Resolved (a : A)
  | Rejected (reason : string).
Arguments Resolved {A} a.
Arguments Rejected {A} reason.

(** The engine: for a call, the [(err, nodes)] pairs it hands to the
    callback, in order, and then how its promise settles ([err] is kept as
    whether it is set). *)
Definition Engine := FindCall → list (bool * list SgNode) * Settled unit.

Definition toMatch (node : SgNode) : PatternMatch :=
  {| filePath := root_filename node;
     startLine := (range_start_line node + 1)%Z;
     endLine := (range_end_line node + 1)%Z;
     matchedText := text node |}.

(** The callback: [(err, nodes) => { if (err) return; ... push ... }] *)
Definition onBatch (matches : list PatternMatch) (b : bool * list SgNode)
    : list PatternMatch :=
  if b.1 then matches else matches ++ map toMatch b.2.

(** The result together with the calls made to the engine. *)
Definition patternSearch (findInFiles : Engine) (opts : PatternSearchOptions)
    : Settled (list PatternMatch) * list FindCall :=
  if (length (filePaths opts) =? 0)%nat then (Resolved [], [])
  else
    let call := {| call_paths := filePaths opts; call_pattern := pattern opts |} in
    match findInFiles call with
    | (batches, Resolved _) => (Resolved (foldl onBatch [] batches), [call])
    | (_, Rejected reason) => (Rejected reason, [call])
    end.

End PatternSearch.


(** ** src/search/dependency-graph.ts *)

Module DependencyGraph.

(** [interface RelationRecord] (store/repositories/relation.repository),
    with the fields the property tests fill in. *)
Record RelationRecord := {
  project : string;
  type : string;
  srcFilePath : string;
  srcSymbolName : option string;
  dstProject : string;
  dstFilePath : string;
  dstSymbolName : option string;
  metaJson : option string;
}.

(** [interface IDependencyGraphRepo]: [getByType(project, type)]. *)
Definition IDependencyGraphRepo := string → string → list RelationRecord.

(** The constructor's options. *)
Record Options := {
  relationRepo : IDependencyGraphRepo;
  optProject : string;
  additionalProjects : option (list string);
}.

(** Modelled from the spec: the class [DependencyGraph] of
    src/search/dependency-graph.ts, which is not among the sources (only its
    property tests and the head of [build] quoted in the design note are).
    State: the forward adjacency map (file to set of dependency files) and
    the reverse adjacency map. *)
Record Graph := {
  adjacencyList : gmap string (gset string);
  reverseAdjacencyList : gmap string (gset string);
}.

Definition emptyGraph : Graph :=
  {| adjacencyList := ∅; reverseAdjacencyList := ∅ |}.

(** The set stored under a key, empty when the key is absent. *)
Definition entry (m : gmap string (gset string)) (k : string) : gset string :=
  default ∅ (m !! k).

(** Modelled from the spec: recording one edge in both maps. *)
Definition addEdge (src dst : string) (g : Graph) : Graph :=
  {| adjacencyList :=
       <[src := {[dst]} ∪ entry (adjacencyList g) src]> (adjacencyList g);
     reverseAdjacencyList :=
       <[dst := {[src]} ∪ entry (reverseAdjacencyList g) dst]> (reverseAdjacencyList g) |}.

(** The head of [build] as the design note quotes it: the relations of the
    three tracked types, for the project and the additional projects. *)
Definition trackedTypes : list string :=
  ["imports"; "type-references"; "re-exports"].

Definition loadRelations (o : Options) : list RelationRecord :=
  p ← optProject o :: default [] (additionalProjects o);
  t ← trackedTypes;
  relationRepo o p t.

(** Modelled from the spec: [build()] assembles both maps from the
    relations loaded; self-loops are kept. *)
Definition build (o : Options) : Graph :=
  foldl (λ g r, addEdge (srcFilePath r) (dstFilePath r) g) emptyGraph (loadRelations o).

(** Modelled from the spec: the first half of [patchFiles] for one file,
    removing all its outgoing edges from the forward map and its membership
    from every reverse entry. *)
Definition removeOutgoing (file : string) (g : Graph) : Graph :=
  {| adjacencyList := delete file (adjacencyList g);
     reverseAdjacencyList := (λ srcs, srcs ∖ {[file]}) <$> reverseAdjacencyList g |}.

(** Modelled from the spec: [patchFiles(changed, deleted, relationsFor)];
    a relation is given as the pair of its source and destination paths. *)
Definition patchFiles (changed deleted : list string)
    (relationsFor : string → list (string * string)) (g : Graph) : Graph :=
  let cleared := foldl (λ g f, removeOutgoing f g) g (changed ++ deleted) in
  foldl (λ g f, foldl (λ g r, addEdge r.1 r.2 g) g (relationsFor f)) cleared changed.

(** Modelled from the spec: [getAdjacencyList()], the forward map. *)
Definition getAdjacencyList (g : Graph) : gmap string (gset string) :=
  adjacencyList g.

(** Modelled from the spec: direct out-neighbours and in-neighbours. *)
Definition dependencies (g : Graph) (f : string) : list string :=
  elements (entry (adjacencyList g) f).
Definition dependents (g : Graph) (f : string) : list string :=
  elements (entry (reverseAdjacencyList g) f).

(** The edges a graph holds, read from the forward map and from the
    reverse map. *)
Definition hasEdge (g : Graph) (src dst : string) : Prop :=
  dst ∈ entry (adjacencyList g) src.
Definition hasReverseEdge (g : Graph) (src dst : string) : Prop :=
  src ∈ entry (reverseAdjacencyList g) dst.

(** No key of the forward map is left with an empty set. *)
Definition noEmptyEntry (g : Graph) : Prop :=
  ∀ f deps, adjacencyList g !! f = Some deps → deps ≠ ∅.

(** The edges of the relation set a [build] loads. *)
Definition relationEdges (o : Options) : list (string * string) :=
  (λ r, (srcFilePath r, dstFilePath r)) <$> loadRelations o.

(** A walk along forward edges from a file to a file; the list holds the
    files after the first one, the last one included. *)
Inductive walk (g : Graph) : string → list string → string → Prop :=
  | walk_nil f : walk g f [] f
  | walk_cons f w l t : hasEdge g f w → walk g w l t → walk g f (w :: l) t.

(** A simple cycle, written as its files in order: no file twice, an edge
    from each file to the next and from the last back to the first. *)
Definition simpleCycle (g : Graph) (p : list string) : Prop :=
  ∃ s l, p = s :: l ∧ NoDup p ∧ walk g s (l ++ [s]) s.

(** The same cycle written from another of its files. *)
Definition rotation (p p' : list string) : Prop :=
  ∃ a b, p = a ++ b ∧ p' = b ++ a.

(** Modelled from the spec: the files of the graph, every key of the
    forward map and every dependency listed under one. *)
Definition nodes (g : Graph) : list string :=
  elements (dom (adjacencyList g) ∪ ⋃ (map snd (map_to_list (adjacencyList g)))).

(** Modelled from the spec: one round of following forward edges from a
    set of files. *)
Definition expand (g : Graph) (seen : gset string) : gset string :=
  seen ∪ ⋃ (map (entry (adjacencyList g)) (elements seen)).

(** Modelled from the spec: the files reachable from [f], itself
    included; a path that repeats no file visits at most [length (nodes g)]
    files, so that many rounds reach them all. *)
Definition reachable (g : Graph) (f : string) : gset string :=
  Nat.iter (length (nodes g)) (expand g) {[f]}.

(** Modelled from the spec: the component Tarjan's algorithm produces for
    [f], the files that reach [f] and are reached from it, in the order of
    [nodes]. *)
Definition componentOf (g : Graph) (f : string) : list string :=
  filter (λ w, w ∈ reachable g f ∧ f ∈ reachable g w) (nodes g).

(** Modelled from the spec: the components in the order their first files
    come in [todo], skipping the files already assigned to one. *)
Fixpoint components (g : Graph) (todo : list string) (assigned : gset string)
    : list (list string) :=
  match todo with
  | [] => []
  | f :: rest =>
      if decide (f ∈ assigned) then components g rest assigned
      else
        let c := componentOf g f in
        c :: components g rest (assigned ∪ list_to_set c)
  end.

(** Modelled from the spec: the strongly connected components of the
    graph, each file in exactly one of them. *)
Definition tarjanSCC (g : Graph) : list (list string) :=
  components g (nodes g) ∅.

(** Modelled from the spec: whether a file depends on itself. *)
Definition selfLoop (g : Graph) (f : string) : bool :=
  bool_decide (f ∈ entry (adjacencyList g) f).

(** Modelled from the spec: [hasCycle()] is true iff Tarjan SCC produces a
    component of size > 1 or any self-loop exists. *)
Definition hasCycle (g : Graph) : bool :=
  existsb (λ c, 1 <? length c)%nat (tarjanSCC g) || existsb (selfLoop g) (nodes g).

(** Modelled from the spec: the search of Johnson's algorithm from the
    start file [s].  [f] is the file being extended, [path] the files before
    it on the current path (latest first) and [allowed] the files of the
    component that come after [s]; a step back to [s] closes a cycle. *)
Fixpoint circuit (g : Graph) (fuel : nat) (s : string) (allowed path : list string)
    (f : string) : list (list string) :=
  match fuel with
  | O => []
  | S fuel' =>
      w ← dependencies g f;
      if decide (w = s) then [reverse (f :: path)]
      else if decide (w ∈ allowed ∧ w ∉ f :: path)
           then circuit g fuel' s allowed (f :: path) w
           else []
  end.

(** Modelled from the spec: Johnson's enumeration of the simple cycles of
    one component; each start file is removed from the component once its
    cycles are listed. *)
Fixpoint johnson (g : Graph) (c : list string) : list (list string) :=
  match c with
  | [] => []
  | s :: rest => circuit g (length c) s rest [] s ++ johnson g rest
  end.

(** Modelled from the spec: a non-trivial component has more than one
    file, or a file with a self-loop. *)
Definition nontrivial (g : Graph) (c : list string) : bool :=
  (1 <? length c)%nat || existsb (selfLoop g) c.

(** Modelled from the spec: [cyclePaths()] without options enumerates the
    simple cycles over each non-trivial component. *)
Definition cyclePaths (g : Graph) : list (list string) :=
  c ← tarjanSCC g;
  if nontrivial g c then johnson g c else [].

End DependencyGraph.


(** ** Concrete inputs used to run the definitions *)

Module Examples.

(** A runtime whose clock reads 200 s after the epoch and whose date parser
    knows two timestamps. *)
Definition rt0 : Ownership.Runtime :=
  {| Ownership.Date_now := 200000;
     Ownership.Date_toISOString := "1970-01-01T00:03:20.000Z";
     Ownership.Date_getTime := λ s,
       if String.eqb s "1970-01-01T00:01:40.000Z" then Some 100000%Z
       else if String.eqb s "1970-01-01T00:03:20.000Z" then Some 200000%Z
       else None;
     Ownership.process_kill := λ _, Ownership.Signalled |}.

(** The same runtime with a given answer of [process.kill]. *)
Definition rtKill (k : Ownership.KillResult) : Ownership.Runtime :=
  {| Ownership.Date_now := 200000;
     Ownership.Date_toISOString := "1970-01-01T00:03:20.000Z";
     Ownership.Date_getTime := Ownership.Date_getTime (Runtime := rt0);
     Ownership.process_kill := λ _, k |}.

Definition ownerRow (p : Z) (hb : string) (i : option string) : Ownership.WatcherOwnerRow :=
  {| Ownership.pid := p; Ownership.heartbeat_at := hb; Ownership.instance_id := i |}.

Definition storeWith (o : Ownership.WatcherOwnerRow) : Ownership.FakeStore :=
  {| Ownership.row := Some o |}.

Definition acquireOpts (t : Z) (alive : bool) (stale : Z) (i : option string)
    : Ownership.AcquireOptions :=
  {| Ownership.now := Some t; Ownership.isAlive := Some (λ _, alive);
     Ownership.staleAfterSeconds := Some stale; Ownership.instanceId := i |}.

(** A context over parsed files kept as their source text, with a map for
    the cache; the file "/bad.ts" cannot be read and "/err.ts" does not
    parse. *)
Definition cacheSet (k v : string) (c : gmap string string) : gmap string string :=
  <[k := v]> c.
Definition cacheGet (k : string) (c : gmap string string)
    : option string * gmap string string :=
  (c !! k, c).

Definition ctx0 (isClosed : bool) : @ParseApi.GildashContext string unit (gmap string string) :=
  {| ParseApi.closed := isClosed;
     ParseApi.parseSourceFn := λ fp text _,
       if String.eqb fp "/err.ts"
       then ParseApi.Return (ParseApi.Err (ParseApi.GildashError "parse" "unexpected token"))
       else ParseApi.Return (ParseApi.Ok text);
     ParseApi.readFileFn := λ fp,
       if String.eqb fp "/bad.ts"
       then ParseApi.Throw (ParseApi.ThrownValue "ENOENT")
       else ParseApi.Return "export {}";
     ParseApi.parseCache := {["/a.ts" := "export {}"]} |}.

(** A repository that holds import relations only. *)
Definition importRel (s d : string) : DependencyGraph.RelationRecord :=
  {| DependencyGraph.project := "test-project"; DependencyGraph.type := "imports";
     DependencyGraph.srcFilePath := s; DependencyGraph.srcSymbolName := None;
     DependencyGraph.dstProject := "test-project"; DependencyGraph.dstFilePath := d;
     DependencyGraph.dstSymbolName := None; DependencyGraph.metaJson := None |}.

Definition importsOnly (edges : list (string * string)) : DependencyGraph.Options :=
  {| DependencyGraph.relationRepo := λ _ t,
       if String.eqb t "imports" then (λ e, importRel e.1 e.2) <$> edges else [];
     DependencyGraph.optProject := "test-project";
     DependencyGraph.additionalProjects := None |}.

(** Before the change: a -> b -> c -> a and d -> a.  After it c imports b
    instead of a, and d is gone. *)
Definition before : DependencyGraph.Options :=
  importsOnly [("/a.ts", "/b.ts"); ("/b.ts", "/c.ts"); ("/c.ts", "/a.ts"); ("/d.ts", "/a.ts")].
Definition after : DependencyGraph.Options :=
  importsOnly [("/a.ts", "/b.ts"); ("/b.ts", "/c.ts"); ("/c.ts", "/b.ts")].
Definition relationsAfter (f : string) : list (string * string) :=
  if String.eqb f "/c.ts" then [("/c.ts", "/b.ts")] else [].

(** One file that imports itself. *)
Definition selfImport : DependencyGraph.Options :=
  importsOnly [("/a.ts", "/b.ts"); ("/b.ts", "/b.ts")].

End Examples.


(** ** src/store/repositories/file.repository.ts *)

Module FileRepository.

(** [lineCount?: number | null] *)
Inductive LineCount :=
  | Undefined
  | Null
  | Lines (n : Z).

(** [interface FileRecord] *)
Record FileRecord := {
  project : string;
  filePath : string;
  mtimeMs : Z;
  size : Z;
  contentHash : string;
  updatedAt : string;
  lineCount : LineCount;
}.

(** The columns of a row of [files] besides its key. *)
Record Columns := {
  col_mtimeMs : Z;
  col_size : Z;
  col_contentHash : string;
  col_updatedAt : string;
  col_lineCount : option Z;     (* NULL or a number *)
}.

(** The table [files] behind [db.drizzleDb].  Its rows are unique on
    (project, file_path), the conflict target of [upsertFile], so the table
    is a map from that pair to the other columns. *)
Abbreviation Files := (gmap (string * string) Columns).

(** [record.lineCount ?? null] *)
Definition orNull (l : LineCount) : option Z :=
  match l with
  | Undefined | Null => None
  | Lines n => Some n
  end.

(** The values [upsertFile] writes, for the insert and for the update. *)
Definition columnsOf (record : FileRecord) : Columns :=
  {| col_mtimeMs := mtimeMs record;
     col_size := size record;
     col_contentHash := contentHash record;
     col_updatedAt := updatedAt record;
     col_lineCount := orNull (lineCount record) |}.

(** A selected row as a [FileRecord]. *)
Definition toRecord (key : string * string) (c : Columns) : FileRecord :=
  {| project := key.1;
     filePath := key.2;
     mtimeMs := col_mtimeMs c;
     size := col_size c;
     contentHash := col_contentHash c;
     updatedAt := col_updatedAt c;
     lineCount := match col_lineCount c with Some n => Lines n | None => Null end |}.

(** [select().from(files).where(project = ? and filePath = ?).get() ?? null] *)
Definition getFile (db : Files) (project filePath : string) : option FileRecord :=
  toRecord (project, filePath) <$> db !! (project, filePath).

(** [insert(files).values(...).onConflictDoUpdate({target, set}).run()] *)
Definition upsertFile (db : Files) (record : FileRecord) : Files :=
  <[(project record, filePath record) := columnsOf record]> db.

(** [select().from(files).where(project = ?).all()]; the order of the rows
    is the store's. *)
Definition getAllFiles (db : Files) (project : string) : list FileRecord :=
  (λ row, toRecord row.1 row.2) <$> filter (λ row, row.1.1 = project) (map_to_list db).

(** [for (const r of rows) map.set(r.filePath, r)] *)
Definition getFilesMap (db : Files) (project : string) : gmap string FileRecord :=
  foldl (λ m r, <[filePath r := r]> m) ∅ (getAllFiles db project).

(** [delete(files).where(project = ? and filePath = ?).run()] *)
Definition deleteFile (db : Files) (project filePath : string) : Files :=
  delete (project, filePath) db.

End FileRepository.


(** ** The known-file filter of the relation indexer *)

Module RelationIndexer.

(** [`${project}::${filePath}`] *)
Definition knownKey (project filePath : string) : string :=
  String.append project (String.append "::" filePath).

Section WithCollaborators.
(** The path helpers and the plain resolvers are other modules' functions,
    and a project boundary is read only through its [project]. *)
Context {TsconfigPaths ProjectBoundary : Type}.
Variable boundaryProject : ProjectBoundary → string.
Variable resolveImport : string → string → option TsconfigPaths → list string.
Variable resolveBareSpecifier : string → string → list string.
Variable toRelativePath : string → string → string.
Variable resolveFileProject : string → list ProjectBoundary → string.

(** The set built between the two passes of the coordinator:
    [for (const boundary of boundaries)
       for (const [fp] of fileRepo.getFilesMap(boundary.project))
         knownFiles.add(`${boundary.project}::${fp}`)] *)
Definition buildKnownFiles (db : FileRepository.Files) (boundaries : list ProjectBoundary)
    : gset string :=
  foldl (λ known boundary,
           foldl (λ known entry, {[ knownKey (boundaryProject boundary) entry.1 ]} ∪ known)
                 known
                 (map_to_list (FileRepository.getFilesMap db (boundaryProject boundary))))
        ∅ boundaries.

(** The project a candidate is looked up under: [resolveFileProject(rel,
    boundaries)] when boundaries are given, the source's project
    otherwise. *)
Definition lookupProject (project : string) (boundaries : option (list ProjectBoundary))
    (rel : string) : string :=
  match boundaries with
  | Some bs => resolveFileProject rel bs
  | None => project
  end.

(** Step 3 of the resolver: the first candidate present in [knownFiles],
    as a one-element list, or none. *)
Fixpoint firstKnown (projectRoot project : string)
    (boundaries : option (list ProjectBoundary)) (knownFiles : gset string)
    (candidates : list string) : list string :=
  match candidates with
  | [] => []
  | c :: rest =>
      let rel := toRelativePath projectRoot c in
      if decide (knownKey (lookupProject project boundaries rel) rel ∈ knownFiles)
      then [c]
      else firstKnown projectRoot project boundaries knownFiles rest
  end.

(** The candidates of steps 1 and 2: the plain resolution, and the
    bare-specifier candidates when that is empty. *)
Definition candidatesFor (projectRoot currentFile importPath : string)
    (paths : option TsconfigPaths) : list string :=
  let candidates := resolveImport currentFile importPath paths in
  if (length candidates =? 0)%nat then resolveBareSpecifier projectRoot importPath
  else candidates.

(** [customResolver] of [indexFileRelations], for a given [knownFiles]. *)
Definition customResolver (projectRoot project : string)
    (boundaries : option (list ProjectBoundary)) (knownFiles : gset string)
    (currentFile importPath : string) (paths : option TsconfigPaths) : list string :=
  firstKnown projectRoot project boundaries knownFiles
    (candidatesFor projectRoot currentFile importPath paths).

End WithCollaborators.

End RelationIndexer.


(** ** src/search/dependency-graph.property.spec.ts *)

Module GraphPropertySpec.
Import DependencyGraph.

Definition PROJECT : string := "test-project".

Definition makeRelation (src dst : string) : RelationRecord :=
  {| project := PROJECT; type := "imports";
     srcFilePath := src; srcSymbolName := None;
     dstProject := PROJECT; dstFilePath := dst;
     dstSymbolName := None; metaJson := None |}.

(** The repository answers every [getByType] with all the relations. *)
Definition buildGraphFromEdges (edges : list (string * string)) : Graph :=
  build {| relationRepo := λ _ _, (λ e, makeRelation e.1 e.2) <$> edges;
           optProject := PROJECT;
           additionalProjects := None |}.

(** [Array.from(set)]: the values in the order they were first added. *)
Definition addOnce (seen : list string) (x : string) : list string :=
  if decide (x ∈ seen) then seen else seen ++ [x].

(** [allFiles]: [for (const e of edges) { add(e.src); add(e.dst) }] *)
Definition changedFiles (edges : list (string * string)) : list string :=
  foldl (λ seen e, addOnce (addOnce seen e.1) e.2) [] edges.

(** [edges.filter(e => e.src === filePath).map(...)] *)
Definition relationsForFile (edges : list (string * string)) (filePath : string)
    : list (string * string) :=
  filter (λ e, e.1 = filePath) edges.

(** The graph with its two maps exchanged: its forward edges are the
    reverse edges of [g]. *)
Definition reversed (g : Graph) : Graph :=
  {| adjacencyList := reverseAdjacencyList g;
     reverseAdjacencyList := adjacencyList g |}.

(** Modelled from the spec: [getTransitiveDependencies(f)], what a forward
    search from [f] reaches, [f] excluded (the class is not among the
    sources). *)
Definition getTransitiveDependencies (g : Graph) (f : string) : list string :=
  elements (reachable g f ∖ {[f]}).

(** Modelled from the spec: [getTransitiveDependents(f)], what a search
    along the reverse map from [f] reaches, [f] excluded. *)
Definition getTransitiveDependents (g : Graph) (f : string) : list string :=
  elements (reachable (reversed g) f ∖ {[f]}).

(** Modelled from the spec: [getAffectedByChange(changed)], the union of
    the transitive dependents of each changed file, plus the changed files
    themselves. *)
Definition getAffectedByChange (g : Graph) (changed : list string) : list string :=
  elements (list_to_set changed
            ∪ ⋃ (map (λ x, list_to_set (C := gset string) (getTransitiveDependents g x)) changed)).

End GraphPropertySpec.


(** ** More concrete inputs *)

Module MoreExamples.

(** An engine that delivers three batches, the second with an error. *)
Definition twoBatches : PatternSearch.Engine :=
  λ _, ([(false, [{| PatternSearch.range_start_line := 0;
                     PatternSearch.range_end_line := 2;
                     PatternSearch.root_filename := "/a.ts";
                     PatternSearch.text := "console.log(1)" |}]);
         (true, [{| PatternSearch.range_start_line := 9;
                    PatternSearch.range_end_line := 9;
                    PatternSearch.root_filename := "/b.ts";
                    PatternSearch.text := "console.log(2)" |}]);
         (false, [{| PatternSearch.range_start_line := 4;
                     PatternSearch.range_end_line := 4;
                     PatternSearch.root_filename := "/c.ts";
                     PatternSearch.text := "console.log(3)" |}])],
        PatternSearch.Resolved ()).

(** Two records of the project "app"; the first leaves [lineCount] out. *)
Definition fileA : FileRepository.FileRecord :=
  {| FileRepository.project := "app"; FileRepository.filePath := "src/a.ts";
     FileRepository.mtimeMs := 1000; FileRepository.size := 10;
     FileRepository.contentHash := "aaaa";
     FileRepository.updatedAt := "1970-01-01T00:00:01.000Z";
     FileRepository.lineCount := FileRepository.Undefined |}.

Definition fileB (hash : string) : FileRepository.FileRecord :=
  {| FileRepository.project := "app"; FileRepository.filePath := "src/b.ts";
     FileRepository.mtimeMs := 2000; FileRepository.size := 20;
     FileRepository.contentHash := hash;
     FileRepository.updatedAt := "1970-01-01T00:00:02.000Z";
     FileRepository.lineCount := FileRepository.Lines 3 |}.

(** A table with the two files. *)
Definition twoFiles : FileRepository.Files :=
  FileRepository.upsertFile (FileRepository.upsertFile ∅ fileA) (fileB "bbbb").

(** Path helpers over a root directory "/repo/": a path under the root is
    made relative by dropping it, and every file belongs to "app". *)
Definition dropRoot (projectRoot path : string) : string :=
  if String.prefix projectRoot path
  then String.substring (String.length projectRoot)
         (String.length path - String.length projectRoot) path
  else path.

(** A plain resolver that offers ".ts" and "/index.ts" for "./b". *)
Definition offerB (currentFile importPath : string) (paths : option unit) : list string :=
  if String.eqb importPath "./b"
  then ["/repo/src/b.d.ts"; "/repo/src/b.ts"; "/repo/src/b/index.ts"]
  else [].

(** A project whose name has colons in it, with one file, and a plain
    resolver that offers a path with colons in it. *)
Definition colonFile : FileRepository.FileRecord :=
  {| FileRepository.project := "app::b"; FileRepository.filePath := "c.ts";
     FileRepository.mtimeMs := 3000; FileRepository.size := 30;
     FileRepository.contentHash := "cccc";
     FileRepository.updatedAt := "1970-01-01T00:00:03.000Z";
     FileRepository.lineCount := FileRepository.Null |}.

Definition colonFiles : FileRepository.Files :=
  FileRepository.upsertFile ∅ colonFile.

Definition offerColon (currentFile importPath : string) (paths : option unit) : list string :=
  ["/repo/b::c.ts"].

(** A bare-specifier resolver that offers the package's entry file. *)
Definition offerPackage (projectRoot importPath : string) : list string :=
  ["/repo/node_modules/pkg/index.ts"].

End MoreExamples.


(** ** Terms used to state the ownership protocol *)

Module OwnershipTerms.
Import Ownership.

(** The row is kept: it exists, its pid is alive, there is no PID recycling
    and its heartbeat is fresh. *)
Definition kept `{Runtime} (db : FakeStore) (p : Z) (options : AcquireOptions) : Prop :=
  ∃ o, row db = Some o
       ∧ pidRecycled options p o = false
       ∧ isAliveOf options (pid o) = true
       ∧ (heartbeatAgeSeconds options o < staleOf options)%Z.

End OwnershipTerms.


(** ** Terms used to state the resolver over known files *)

Module RelationIndexerTerms.
Import Stdlib.Strings.Ascii.

(** The name has no colon in it. *)
Fixpoint colonFree (s : string) : bool :=
  match s with
  | EmptyString => true
  | String a s => negb (Ascii.eqb a ":"%char) && colonFree s
  end.

End RelationIndexerTerms.


(** * Watcher ownership: what [acquireWatcherRole] does on the in-memory store *)

Module OwnershipFacts.
Import Ownership Examples.

Section Acquire.
Context {rt : Runtime}.
Implicit Types (db : FakeStore) (p : Z) (options : AcquireOptions) (o : WatcherOwnerRow).

(** The store after the caller has been written as the owner. *)
Local Abbreviation installed p options :=
  {| row := Some (stamped p (instanceId options)) |}.

Lemma acquire_absent db p options :
  row db = None →
  acquireWatcherRole db p options = (owner, installed p options).
Proof. intros Hrow. unfold acquireWatcherRole. simpl. by rewrite Hrow. Qed.

Lemma acquire_present db p options o :
  row db = Some o →
  acquireWatcherRole db p options =
    if pidRecycled options p o then (owner, installed p options)
    else if isAliveOf options (pid o)
            && (heartbeatAgeSeconds options o <? staleOf options)%Z
         then (reader, db)
         else (owner, installed p options).
Proof. intros Hrow. unfold acquireWatcherRole. simpl. by rewrite Hrow. Qed.


(** C4. With an alive stored pid and two supplied instance identifiers
    that differ (supplied as the code tests it: present and not the empty
    string), a caller with another pid becomes [owner] and the row is
    replaced by one that holds the caller's pid, the caller's identifier and
    the heartbeat the store stamps at the write, [new Date().toISOString()]:
    [replaceOwner] is given the pid and the identifier only, and the [now]
    of the call is not written.  A caller with the stored pid does not enter
    that branch, and the staleness check decides. *)
Theorem acquire_recycled_pid db p options o :
  row db = Some o →
  isAliveOf options (pid o) = true →
  truthy (instance_id o) = true →
  truthy (instanceId options) = true →
  instance_id o ≠ instanceId options →
  (pid o ≠ p →
     acquireWatcherRole db p options
       = (owner, {| row := Some {| pid := p; heartbeat_at := Date_toISOString;
                                   instance_id := instanceId options |} |}))
  ∧ (pid o = p →
       pidRecycled options p o = false
       ∧ acquireWatcherRole db p options =
           if (heartbeatAgeSeconds options o <? staleOf options)%Z
           then (reader, db)
           else (owner, {| row := Some {| pid := p; heartbeat_at := Date_toISOString;
                                          instance_id := instanceId options |} |})).
Proof.
  intros Hrow Halive Hrow_id Hcaller_id Hne.
  rewrite (acquire_present _ _ _ _ Hrow).
  unfold pidRecycled, strict_ne. rewrite Halive, Hrow_id, Hcaller_id.
  rewrite bool_decide_eq_false_2 by done. simpl.
  split; intros Hpid.
  - apply Z.eqb_neq in Hpid. by rewrite Hpid.
  - apply Z.eqb_eq in Hpid. by rewrite Hpid.
Qed.

(** C5. Whenever [acquire] answers [owner], the store holds exactly one
    row and its pid is the caller's, whichever path was taken. *)
Theorem acquire_owner_single_row db p options db' :
  acquireWatcherRole db p options = (owner, db') →
  ∃ o, rows db' = [o] ∧ pid o = p.
Proof.
  destruct (row db) as [o|] eqn:Hrow.
  - rewrite (acquire_present _ _ _ _ Hrow).
    repeat case_match; intros [= <-]; by eexists.
  - rewrite (acquire_absent _ _ _ Hrow). intros [= <-]. by eexists.
Qed.

(** C6 (amended). An unparsable heartbeat is read as epoch 0, so its age is
    [now / 1000] whole seconds; with an alive pid and no PID recycling,
    [acquire] answers [reader] (store untouched) when that age is below the
    threshold and replaces the row otherwise. *)
Theorem acquire_unparsable_heartbeat db p options o :
  row db = Some o →
  Date_getTime (heartbeat_at o) = None →
  heartbeatAgeSeconds options o = (nowOf options / 1000)%Z
  ∧ (isAliveOf options (pid o) = true →
     pidRecycled options p o = false →
     ((nowOf options / 1000 < staleOf options)%Z →
        acquireWatcherRole db p options = (reader, db))
     ∧ ((staleOf options ≤ nowOf options / 1000)%Z →
          acquireWatcherRole db p options = (owner, installed p options))).
Proof.
  intros Hrow Hnan.
  assert (Hage : heartbeatAgeSeconds options o = (nowOf options / 1000)%Z).
  { unfold heartbeatAgeSeconds, toEpochMs. rewrite Hnan. by rewrite Z.sub_0_r. }
  split; [done|]. intros Halive Hrec.
  rewrite (acquire_present _ _ _ _ Hrow), Hrec, Halive, Hage. simpl.
  split; intros H.
  - apply Z.ltb_lt in H. by rewrite H.
  - apply Z.ltb_ge in H. by rewrite H.
Qed.

(** C7 (amended). With [staleAfterSeconds = 0], [acquire] installs the
    caller and answers [owner] from every state of the row, except the one
    where the stored pid is alive, there is no PID recycling and the stored
    heartbeat is later than [now] (an unparsable one counts as epoch 0):
    there the age is negative and the answer is [reader]. *)
Theorem acquire_zero_threshold db p options :
  staleAfterSeconds options = Some 0%Z →
  ((∀ o, row db = Some o →
      isAliveOf options (pid o) = true → pidRecycled options p o = false →
      (toEpochMs (heartbeat_at o) ≤ nowOf options)%Z) →
   acquireWatcherRole db p options = (owner, installed p options))
  ∧ (∀ o, row db = Some o →
       isAliveOf options (pid o) = true → pidRecycled options p o = false →
       (nowOf options < toEpochMs (heartbeat_at o))%Z →
       acquireWatcherRole db p options = (reader, db)).
Proof.
  intros Hzero.
  assert (∀ o, (heartbeatAgeSeconds options o <? staleOf options)%Z
               = (nowOf options <? toEpochMs (heartbeat_at o))%Z) as Hage.
  { intros o. unfold staleOf, heartbeatAgeSeconds. rewrite Hzero. simpl.
    destruct (Z.ltb_spec (nowOf options) (toEpochMs (heartbeat_at o))).
    - apply Z.ltb_lt, Z.div_lt_upper_bound; lia.
    - apply Z.ltb_ge, Z.div_pos; lia. }
  split.
  - intros Hpast. destruct (row db) as [o|] eqn:Hrow; [|by apply acquire_absent].
    rewrite (acquire_present _ _ _ _ Hrow), Hage.
    destruct (pidRecycled options p o) eqn:Hrec; [done|].
    destruct (isAliveOf options (pid o)) eqn:Halive; [|done].
    specialize (Hpast o eq_refl Halive Hrec).
    apply Z.ltb_ge in Hpast. by rewrite Hpast.
  - intros o Hrow Halive Hrec Hfuture.
    rewrite (acquire_present _ _ _ _ Hrow), Hage, Hrec, Halive.
    apply Z.ltb_lt in Hfuture. by rewrite Hfuture.
Qed.

End Acquire.

(** The runs below read the clock, the date parser and the liveness probe
    of the runtime [rt0]. *)
#[local] Existing Instance rt0.


(** C4 run: the stored identifier is "old-uuid", the caller's "new-uuid". *)
Lemma acquire_recycled_pid_witness :
  let o := ownerRow 7 "1970-01-01T00:03:20.000Z" (Some "old-uuid") in
  let options := acquireOpts 200000 true 90 (Some "new-uuid") in
  acquireWatcherRole (storeWith o) 100 options
    = (owner, storeWith (ownerRow 100 "1970-01-01T00:03:20.000Z" (Some "new-uuid"))).
Proof.
  intros o options.
  refine (proj1 (acquire_recycled_pid (storeWith o) 100 options o _ _ _ _ _) _);
    first [reflexivity | discriminate].
Defined.

(** C4 as claimed fails in the heartbeat: called with the clock [() => 0]
    that the unit tests inject, while the store's clock reads 200 s, the
    recycling branch writes the caller's pid and identifier with the
    store's stamp, which parses to 200000 ms and not to the call's [now];
    the row (caller pid, now, caller identifier) is not what is stored. *)
Lemma recycled_row_stamped_by_store :
  let o := ownerRow 7 "1970-01-01T00:03:20.000Z" (Some "old-uuid") in
  let options := acquireOpts 0 true 90 (Some "new-uuid") in
  isAliveOf options (pid o) = true
  ∧ truthy (instance_id o) = true
  ∧ truthy (instanceId options) = true
  ∧ instance_id o ≠ instanceId options
  ∧ pid o ≠ 100%Z
  ∧ nowOf options = 0%Z
  ∧ acquireWatcherRole (storeWith o) 100 options
      = (owner, storeWith (ownerRow 100 "1970-01-01T00:03:20.000Z" (Some "new-uuid")))
  ∧ toEpochMs "1970-01-01T00:03:20.000Z" = 200000%Z
  ∧ acquireWatcherRole (storeWith o) 100 options
      ≠ (owner, storeWith (ownerRow 100 "1970-01-01T00:00:00.000Z" (Some "new-uuid"))).
Proof. intros o options. repeat split; discriminate. Qed.

(** C5 run: the owner of a stale row is taken over. *)
Lemma acquire_owner_single_row_witness :
  ∃ o, rows (storeWith (ownerRow 100 "1970-01-01T00:03:20.000Z" None)) = [o] ∧ pid o = 100%Z.
Proof.
  apply (acquire_owner_single_row (storeWith (ownerRow 7 "1970-01-01T00:01:40.000Z" None)) 100
           (acquireOpts 200000 true 90 None)).
  reflexivity.
Defined.

(** C6 run: the heartbeat text "not-a-date" at [now = 200000]. *)
Lemma acquire_unparsable_heartbeat_witness :
  let o := ownerRow 7 "not-a-date" None in
  let options := acquireOpts 200000 true 90 None in
  heartbeatAgeSeconds options o = (nowOf options / 1000)%Z
  ∧ acquireWatcherRole (storeWith o) 100 options
      = (owner, storeWith (ownerRow 100 "1970-01-01T00:03:20.000Z" None)).
Proof.
  intros o options.
  destruct (acquire_unparsable_heartbeat (storeWith o) 100 options o)
    as [Hage Hrole]; [reflexivity..|].
  split; [exact Hage|].
  destruct Hrole as [_ Hstale]; [reflexivity..|].
  apply Hstale. vm_compute. discriminate.
Defined.

(** C6 as claimed fails: for the heartbeat text "not-a-date" read at
    [now = 200000] with a 90 s threshold, an alive pid and no recycling, the
    age is 200 s, not 0, and the answer is [owner] with the row replaced. *)
Lemma unparsable_heartbeat_is_stale :
  let o := ownerRow 7 "not-a-date" None in
  let options := acquireOpts 200000 true 90 None in
  Date_getTime (heartbeat_at o) = None
  ∧ isAliveOf options (pid o) = true
  ∧ pidRecycled options 100 o = false
  ∧ (0 < staleOf options)%Z
  ∧ heartbeatAgeSeconds options o = 200%Z
  ∧ acquireWatcherRole (storeWith o) 100 options
      = (owner, storeWith (ownerRow 100 "1970-01-01T00:03:20.000Z" None))
  ∧ acquireWatcherRole (storeWith o) 100 options ≠ (reader, storeWith o).
Proof. intros o options. repeat split. vm_compute. discriminate. Qed.

(** C7 run: threshold 0 against a heartbeat written at [now]. *)
Lemma acquire_zero_threshold_witness :
  let o := ownerRow 7 "1970-01-01T00:03:20.000Z" None in
  let options := acquireOpts 200000 true 0 None in
  acquireWatcherRole (storeWith o) 100 options
    = (owner, storeWith (ownerRow 100 "1970-01-01T00:03:20.000Z" None)).
Proof.
  intros o options.
  refine (proj1 (acquire_zero_threshold (storeWith o) 100 options _) _); [reflexivity|].
  intros o' [= <-] _ _. vm_compute. discriminate.
Defined.

(** C7 as claimed fails: with threshold 0, an alive owner whose heartbeat
    (100 s) lies after [now] (1 s) has age -99 s, which is below 0, and the
    caller stays [reader]. *)
Lemma future_heartbeat_stays_reader :
  let o := ownerRow 7 "1970-01-01T00:01:40.000Z" None in
  let options := acquireOpts 1000 true 0 None in
  staleAfterSeconds options = Some 0%Z
  ∧ heartbeatAgeSeconds options o = (-99)%Z
  ∧ acquireWatcherRole (storeWith o) 100 options = (reader, storeWith o).
Proof. repeat split. Qed.

(** ** The cases of src/watcher/ownership.spec.ts, replayed *)

Example spec_no_row :
  acquireWatcherRole {| row := None |} 100 (acquireOpts 0 false 90 None)
    = (owner, storeWith (ownerRow 100 "1970-01-01T00:03:20.000Z" None)).
Proof. reflexivity. Qed.

Example spec_alive_and_fresh :
  let db := storeWith (ownerRow 7 "1970-01-01T00:03:20.000Z" None) in
  acquireWatcherRole db 100 (acquireOpts 200000 true 90 None) = (reader, db).
Proof. reflexivity. Qed.

Example spec_dead_owner :
  let db := storeWith (ownerRow 7 "1970-01-01T00:03:20.000Z" None) in
  (acquireWatcherRole db 100 (acquireOpts 200000 false 90 None)).1 = owner.
Proof. reflexivity. Qed.

Example spec_exact_threshold :
  let db := storeWith (ownerRow 7 "1970-01-01T00:01:40.000Z" None) in
  (acquireWatcherRole db 100 (acquireOpts 190000 true 90 None)).1 = owner.
Proof. reflexivity. Qed.

Example spec_default_threshold :
  let db := storeWith (ownerRow 7 "1970-01-01T00:01:40.000Z" None) in
  acquireWatcherRole db 100
    {| now := Some 159000%Z; isAlive := Some (λ _, true);
       staleAfterSeconds := None; instanceId := None |} = (reader, db).
Proof. reflexivity. Qed.

Example spec_same_instance :
  let db := storeWith (ownerRow 7 "1970-01-01T00:03:20.000Z" (Some "same-uuid")) in
  acquireWatcherRole db 100 (acquireOpts 200000 true 90 (Some "same-uuid")) = (reader, db).
Proof. reflexivity. Qed.

Example spec_same_pid_other_instance :
  let db := storeWith (ownerRow 100 "1970-01-01T00:03:20.000Z" (Some "old-uuid")) in
  acquireWatcherRole db 100 (acquireOpts 200000 true 90 (Some "new-uuid")) = (reader, db).
Proof. reflexivity. Qed.

Example spec_default_probe :
  let db := storeWith (ownerRow 7 "1970-01-01T00:03:20.000Z" None) in
  let options := {| now := None; isAlive := None;
                    staleAfterSeconds := Some 90%Z; instanceId := None |} in
  (acquireWatcherRole (rt := rtKill (Threw (Some "ESRCH")))
     (H := fakeStore (rt := rtKill (Threw (Some "ESRCH")))) db 100 options).1 = owner
  ∧ (acquireWatcherRole (rt := rtKill (Threw (Some "EPERM")))
       (H := fakeStore (rt := rtKill (Threw (Some "EPERM")))) db 100 options).1 = reader
  ∧ (acquireWatcherRole (rt := rtKill (Threw None))
       (H := fakeStore (rt := rtKill (Threw None))) db 100 options).1 = reader.
Proof. done. Qed.

Example spec_release_then_acquire :
  let db := storeWith (ownerRow 7 "1970-01-01T00:03:20.000Z" None) in
  (acquireWatcherRole (releaseWatcherRole db 7) 100 (acquireOpts 200000 true 90 None)).1
    = owner.
Proof. reflexivity. Qed.

End OwnershipFacts.


(** * The parse API on a closed context, and per-file failures of a batch *)

Module ParseApiFacts.
Import ParseApi Examples.

Section Closed.
Context {ParsedFile ParserOptions Cache : Type}.
Variable cache_set : string → ParsedFile → Cache → Cache.
Variable cache_get : string → Cache → option ParsedFile * Cache.
Implicit Types (ctx : @GildashContext ParsedFile ParserOptions Cache).
Implicit Types (options : option ParserOptions).

(** C8 (amended). On a closed context [parseSource] throws the typed closed
    error and [batchParse] rejects with it, for every input; [getParsedAst]
    returns [undefined] and leaves the context alone. *)
Theorem closed_context_operations ctx filePath sourceText options filePaths settled :
  closed ctx = true →
  parseSource cache_set ctx filePath sourceText options
    = (Throw (ThrownError closedError), ctx)
  ∧ batchParse ctx filePaths options settled = Throw (ThrownError closedError)
  ∧ getParsedAst cache_get ctx filePath = (Return None, ctx).
Proof.
  intros Hclosed. unfold parseSource, batchParse, getParsedAst.
  by rewrite Hclosed.
Qed.

End Closed.

Section Batch.
Context {ParsedFile ParserOptions Cache : Type}.
Implicit Types (ctx : @GildashContext ParsedFile ParserOptions Cache).
Implicit Types (options : option ParserOptions) (acc : @BatchParseResult ParsedFile).

Lemma settle_parsed ctx options acc fp result :
  parses ctx options fp = Some result →
  settle ctx options acc fp
    = {| parsed := <[fp := result]> (parsed acc); failures := failures acc |}.
Proof.
  unfold parses, settle. intros H.
  destruct (readFileFn ctx fp) as [text|]; [|done].
  destruct (parseSourceFn ctx fp text options) as [[?|?]|]; by simplify_eq.
Qed.

Lemma settle_failed ctx options acc fp :
  parses ctx options fp = None →
  ∃ e, settle ctx options acc fp
    = {| parsed := parsed acc; failures := failures acc ++ [(fp, e)] |}.
Proof.
  unfold parses, settle. intros H.
  destruct (readFileFn ctx fp) as [text|]; [|by eexists].
  destruct (parseSourceFn ctx fp text options) as [[?|?]|]; by eauto.
Qed.

(** The map after a run of settled reads: a path that parses and was
    settled is bound to its result, every other binding is as before. *)
Lemma foldl_settle_parsed ctx options settled acc fp :
  parsed (foldl (settle ctx options) acc settled) !! fp =
    match parses ctx options fp with
    | Some result => if decide (fp ∈ settled) then Some result else parsed acc !! fp
    | None => parsed acc !! fp
    end.
Proof.
  revert acc. induction settled as [|x settled IH]; intros acc; cbn [foldl].
  { destruct (parses ctx options fp); [|done]. by rewrite decide_False by set_solver. }
  rewrite IH. destruct (parses ctx options x) as [rx|] eqn:Hx.
  - rewrite (settle_parsed _ _ _ _ _ Hx). cbn [parsed].
    destruct (decide (fp = x)) as [->|Hne].
    + rewrite Hx, lookup_insert_eq.
      repeat case_decide; first [done | set_solver].
    + rewrite lookup_insert_ne by done.
      destruct (parses ctx options fp); [|done].
      repeat case_decide; first [done | set_solver].
  - destruct (settle_failed _ _ acc _ Hx) as [e ->]. cbn [parsed].
    destruct (parses ctx options fp) as [r|] eqn:Hfp; [|done].
    assert (fp ≠ x) by congruence.
    repeat case_decide; first [done | set_solver].
Qed.

(** The failures after a run of settled reads name the earlier failures
    and exactly the settled paths that do not parse. *)
Lemma foldl_settle_failures ctx options settled acc fp :
  fp ∈ (failures (foldl (settle ctx options) acc settled)).*1 ↔
    fp ∈ (failures acc).*1 ∨ (fp ∈ settled ∧ parses ctx options fp = None).
Proof.
  revert acc. induction settled as [|x settled IH]; intros acc; cbn [foldl].
  { set_solver. }
  rewrite IH. destruct (parses ctx options x) as [rx|] eqn:Hx.
  - rewrite (settle_parsed _ _ _ _ _ Hx). simpl.
    split; [set_solver|]. intros [?|[Hin ?]]; [by left|].
    apply elem_of_cons in Hin as [->|?]; [congruence|]. by right.
  - destruct (settle_failed _ _ acc _ Hx) as [e ->]. simpl.
    rewrite fmap_app, elem_of_app. simpl. set_solver.
Qed.

(** C9. On an open context the batch call returns; a listed file whose
    read or parse fails is named in [failures] and has no entry in
    [parsed], and every other listed file is bound to its parse result,
    in whatever order the reads settle. *)
Theorem batchParse_per_file ctx filePaths options settled :
  closed ctx = false →
  settled ≡ₚ filePaths →
  ∃ r, batchParse ctx filePaths options settled = Return r
    ∧ ∀ fp, fp ∈ filePaths →
        match parses ctx options fp with
        | Some result => parsed r !! fp = Some result ∧ fp ∉ (failures r).*1
        | None => parsed r !! fp = None ∧ fp ∈ (failures r).*1
        end.
Proof.
  intros Hopen Hperm. unfold batchParse. rewrite Hopen.
  eexists; split; [done|]. intros fp Hin.
  rewrite <- Hperm in Hin.
  pose proof (foldl_settle_parsed ctx options settled
                {| parsed := ∅; failures := [] |} fp) as Hp.
  pose proof (foldl_settle_failures ctx options settled
                {| parsed := ∅; failures := [] |} fp) as Hf.
  simpl in Hp, Hf. destruct (parses ctx options fp) as [result|] eqn:Hfp.
  - rewrite decide_True in Hp by done. split; [done|].
    rewrite Hf. intros [?|[_ ?]]; [set_solver|done].
  - split; [by rewrite Hp, lookup_empty|]. apply Hf. by right.
Qed.

End Batch.

(** C8 run: the three operations on the closed example context. *)
Lemma closed_context_operations_witness :
  parseSource cacheSet (ctx0 true) "/a.ts" "export {}" None
    = (Throw (ThrownError closedError), ctx0 true)
  ∧ batchParse (ctx0 true) ["/a.ts"; "/bad.ts"] None ["/bad.ts"; "/a.ts"]
    = Throw (ThrownError closedError)
  ∧ getParsedAst cacheGet (ctx0 true) "/a.ts" = (Return None, ctx0 true).
Proof.
  apply (closed_context_operations cacheSet cacheGet (ctx0 true)). reflexivity.
Defined.

(** C8 as claimed fails for [getParsedAst]: on the closed example context,
    whose cache holds "/a.ts", it returns [undefined] normally and throws
    nothing. *)
Lemma getParsedAst_closed_returns_undefined :
  closed (ctx0 true) = true
  ∧ (getParsedAst cacheGet (ctx0 true) "/a.ts").1 = Return None
  ∧ (getParsedAst cacheGet (ctx0 true) "/a.ts").1 ≠ Throw (ThrownError closedError).
Proof. repeat split. discriminate. Qed.

(** C9 run: three files, one unreadable and one that does not parse, the
    reads settling in another order than listed. *)
Lemma batchParse_per_file_witness :
  ∃ r, batchParse (ctx0 false) ["/a.ts"; "/bad.ts"; "/err.ts"] None
         ["/err.ts"; "/a.ts"; "/bad.ts"] = Return r
    ∧ ∀ fp, fp ∈ ["/a.ts"; "/bad.ts"; "/err.ts"] →
        match parses (ctx0 false) None fp with
        | Some result => parsed r !! fp = Some result ∧ fp ∉ (failures r).*1
        | None => parsed r !! fp = None ∧ fp ∈ (failures r).*1
        end.
Proof.
  apply (batchParse_per_file (ctx0 false)); [reflexivity|].
  apply (Permutation_cons_append ["/a.ts"; "/bad.ts"] "/err.ts").
Defined.

End ParseApiFacts.


(** * Pattern search with no paths *)

Module PatternSearchFacts.
Import PatternSearch.

(** C10. With an empty [filePaths] the search returns no match and makes
    no call to the engine, whatever the engine and the pattern. *)
Theorem patternSearch_no_paths (findInFiles : Engine) (opts : PatternSearchOptions) :
  filePaths opts = [] →
  patternSearch findInFiles opts = (Resolved [], []).
Proof. intros Hnone. unfold patternSearch. by rewrite Hnone. Qed.

(** C10 run: an engine that would report a node for any call. *)
Lemma patternSearch_no_paths_witness :
  patternSearch
    (λ call, ([(false, [{| range_start_line := 0; range_end_line := 0;
                           root_filename := "/a.ts"; text := "console.log(1)" |}])],
              Resolved ()))
    {| pattern := "console.log($$$)"; filePaths := [] |} = (Resolved [], []).
Proof. apply patternSearch_no_paths. reflexivity. Defined.

End PatternSearchFacts.


(** * The dependency graph: edges after [build] and [patchFiles] *)

Module GraphEdgeFacts.
Import DependencyGraph Examples.

Implicit Types (g : Graph) (o : Options) (f s d x y : string).

Lemma entry_insert (m : gmap string (gset string)) k v k' :
  entry (<[k := v]> m) k' = if decide (k = k') then v else entry m k'.
Proof. unfold entry. rewrite lookup_insert. by case_decide. Qed.

Lemma hasEdge_empty x y : ¬ hasEdge emptyGraph x y.
Proof. unfold hasEdge, entry. simpl. rewrite lookup_empty. set_solver. Qed.

Lemma hasReverseEdge_empty x y : ¬ hasReverseEdge emptyGraph x y.
Proof. unfold hasReverseEdge, entry. simpl. rewrite lookup_empty. set_solver. Qed.

Lemma hasEdge_addEdge g s d x y :
  hasEdge (addEdge s d g) x y ↔ (x = s ∧ y = d) ∨ hasEdge g x y.
Proof.
  unfold hasEdge, addEdge. simpl. rewrite entry_insert.
  case_decide; set_solver.
Qed.

Lemma hasReverseEdge_addEdge g s d x y :
  hasReverseEdge (addEdge s d g) x y ↔ (x = s ∧ y = d) ∨ hasReverseEdge g x y.
Proof.
  unfold hasReverseEdge, addEdge. simpl. rewrite entry_insert.
  case_decide; set_solver.
Qed.

Lemma hasEdge_removeOutgoing g f x y :
  hasEdge (removeOutgoing f g) x y ↔ x ≠ f ∧ hasEdge g x y.
Proof.
  unfold hasEdge, removeOutgoing, entry. simpl. rewrite lookup_delete.
  case_decide; set_solver.
Qed.

Lemma hasReverseEdge_removeOutgoing g f x y :
  hasReverseEdge (removeOutgoing f g) x y ↔ x ≠ f ∧ hasReverseEdge g x y.
Proof.
  unfold hasReverseEdge, removeOutgoing, entry. simpl. rewrite lookup_fmap.
  destruct (reverseAdjacencyList g !! y); simpl; set_solver.
Qed.

(** Both maps hold the same edges after any sequence of these updates:
    stated once for a predicate that behaves like [hasEdge]. *)
Section Folds.
Variable holds : Graph → string → string → Prop.
Hypothesis holds_add : ∀ g s d x y,
  holds (addEdge s d g) x y ↔ (x = s ∧ y = d) ∨ holds g x y.
Hypothesis holds_remove : ∀ g f x y,
  holds (removeOutgoing f g) x y ↔ x ≠ f ∧ holds g x y.

Lemma holds_add_all (rs : list (string * string)) g x y :
  holds (foldl (λ g r, addEdge r.1 r.2 g) g rs) x y ↔ (x, y) ∈ rs ∨ holds g x y.
Proof.
  revert g. induction rs as [|[s d] rs IH]; intros g; cbn [foldl].
  - set_solver.
  - rewrite IH, holds_add, elem_of_cons. simpl. naive_solver.
Qed.

Lemma holds_remove_all (fs : list string) g x y :
  holds (foldl (λ g f, removeOutgoing f g) g fs) x y ↔ (x ∉ fs) ∧ holds g x y.
Proof.
  revert g. induction fs as [|f fs IH]; intros g; cbn [foldl].
  - set_solver.
  - rewrite IH, holds_remove, not_elem_of_cons. naive_solver.
Qed.

Lemma holds_insert_all (relationsFor : string → list (string * string))
    (fs : list string) g x y :
  holds (foldl (λ g f, foldl (λ g r, addEdge r.1 r.2 g) g (relationsFor f)) g fs) x y
    ↔ (∃ f, f ∈ fs ∧ (x, y) ∈ relationsFor f) ∨ holds g x y.
Proof.
  revert g. induction fs as [|f fs IH]; intros g; cbn [foldl].
  - set_solver.
  - rewrite IH, holds_add_all. split.
    + intros [(f' & ? & ?)|[?|?]]; [left; exists f'|left; exists f|right]; set_solver.
    + intros [(f' & [->|?]%elem_of_cons & ?)|?]; [by right; left|left; by exists f'|by right; right].
Qed.

Lemma holds_patchFiles changed deleted relationsFor g x y :
  holds (patchFiles changed deleted relationsFor g) x y
    ↔ (∃ f, f ∈ changed ∧ (x, y) ∈ relationsFor f)
      ∨ ((x ∉ changed) ∧ (x ∉ deleted) ∧ holds g x y).
Proof.
  unfold patchFiles. rewrite holds_insert_all, holds_remove_all, not_elem_of_app.
  naive_solver.
Qed.

Lemma holds_build_from (rs : list RelationRecord) g x y :
  holds (foldl (λ g r, addEdge (srcFilePath r) (dstFilePath r) g) g rs) x y
    ↔ (x, y) ∈ (λ r, (srcFilePath r, dstFilePath r)) <$> rs ∨ holds g x y.
Proof.
  revert g. induction rs as [|r rs IH]; intros g; cbn [foldl].
  - set_solver.
  - rewrite IH, holds_add, fmap_cons, elem_of_cons. naive_solver.
Qed.

End Folds.

Lemma hasEdge_build o x y : hasEdge (build o) x y ↔ (x, y) ∈ relationEdges o.
Proof.
  unfold build, relationEdges.
  rewrite (holds_build_from hasEdge hasEdge_addEdge hasEdge_removeOutgoing).
  pose proof (hasEdge_empty x y). tauto.
Qed.

Lemma hasReverseEdge_build o x y :
  hasReverseEdge (build o) x y ↔ (x, y) ∈ relationEdges o.
Proof.
  unfold build, relationEdges.
  rewrite (holds_build_from hasReverseEdge hasReverseEdge_addEdge
             hasReverseEdge_removeOutgoing).
  pose proof (hasReverseEdge_empty x y). tauto.
Qed.

(** ** The forward map keeps no empty entry *)

Lemma noEmptyEntry_addEdge g s d : noEmptyEntry g → noEmptyEntry (addEdge s d g).
Proof.
  intros Hg f deps. unfold addEdge. simpl.
  intros [[_ <-]|[_ ?]]%lookup_insert_Some; [set_solver|by eapply Hg].
Qed.

Lemma noEmptyEntry_removeOutgoing g f : noEmptyEntry g → noEmptyEntry (removeOutgoing f g).
Proof.
  intros Hg k deps. unfold removeOutgoing. simpl.
  intros [_ ?]%lookup_delete_Some. by eapply Hg.
Qed.

Lemma noEmptyEntry_add_all (rs : list (string * string)) g :
  noEmptyEntry g → noEmptyEntry (foldl (λ g r, addEdge r.1 r.2 g) g rs).
Proof.
  revert g. induction rs as [|r rs IH]; intros g Hg; cbn [foldl]; [done|].
  by apply IH, noEmptyEntry_addEdge.
Qed.

Lemma noEmptyEntry_build o : noEmptyEntry (build o).
Proof.
  unfold build. generalize (loadRelations o). intros rs.
  assert (noEmptyEntry emptyGraph) as Hempty by (by intros f deps ?).
  revert Hempty. generalize emptyGraph.
  induction rs as [|r rs IH]; intros g Hg; cbn [foldl]; [done|].
  by apply IH, noEmptyEntry_addEdge.
Qed.

Lemma noEmptyEntry_patchFiles changed deleted relationsFor g :
  noEmptyEntry g → noEmptyEntry (patchFiles changed deleted relationsFor g).
Proof.
  intros Hg. unfold patchFiles.
  assert (noEmptyEntry (foldl (λ g f, removeOutgoing f g) g (changed ++ deleted)))
    as Hcleared.
  { revert g Hg. induction (changed ++ deleted) as [|f fs IH]; intros g Hg;
      cbn [foldl]; [done|]. by apply IH, noEmptyEntry_removeOutgoing. }
  revert Hcleared. generalize (foldl (λ g f, removeOutgoing f g) g (changed ++ deleted)).
  induction changed as [|f fs IH]; intros g' Hg'; cbn [foldl]; [done|].
  by apply IH, noEmptyEntry_add_all.
Qed.

(** Two forward maps without empty entries that hold the same edges are
    the same map. *)
Lemma adjacencyList_ext g1 g2 :
  noEmptyEntry g1 → noEmptyEntry g2 →
  (∀ s d, hasEdge g1 s d ↔ hasEdge g2 s d) →
  adjacencyList g1 = adjacencyList g2.
Proof.
  intros H1 H2 Hedges. apply map_eq. intros k.
  specialize (H1 k). specialize (H2 k).
  assert (∀ d, d ∈ entry (adjacencyList g1) k ↔ d ∈ entry (adjacencyList g2) k)
    as Hk by (intros d; apply Hedges).
  unfold entry in Hk.
  destruct (adjacencyList g1 !! k) as [X|], (adjacencyList g2 !! k) as [Y|];
    simpl in Hk.
  - f_equal. by apply set_eq.
  - destruct (set_choose_L X) as [d Hd]; [by apply H1|]. apply Hk in Hd. set_solver.
  - destruct (set_choose_L Y) as [d Hd]; [by apply H2|]. apply Hk in Hd. set_solver.
  - done.
Qed.

(** C2. Let [old] be the relation set the graph was built from and [new]
    the full relation set after the change, with [changed] and [deleted]
    covering it: [relationsFor] gives each changed file its relations in
    [new], files outside both lists have the same relations in [old] and
    [new], and a deleted file has none left.  Then the patched graph holds
    exactly the edges of a fresh [build] over [new], in the forward map and
    in the reverse map, and its adjacency list is the same map. *)
Theorem patchFiles_equals_build (old new : Options) (changed deleted : list string)
    (relationsFor : string → list (string * string)) :
  (∀ f s d, f ∈ changed →
     ((s, d) ∈ relationsFor f ↔ s = f ∧ (s, d) ∈ relationEdges new)) →
  (∀ s d, s ∉ changed → s ∉ deleted →
     ((s, d) ∈ relationEdges old ↔ (s, d) ∈ relationEdges new)) →
  (∀ s d, s ∈ deleted → s ∉ changed → (s, d) ∉ relationEdges new) →
  let patched := patchFiles changed deleted relationsFor (build old) in
  (∀ s d, hasEdge patched s d ↔ hasEdge (build new) s d)
  ∧ (∀ s d, hasReverseEdge patched s d ↔ hasReverseEdge (build new) s d)
  ∧ getAdjacencyList patched = getAdjacencyList (build new).
Proof.
  intros Hchanged Hkept Hdeleted patched.
  assert (∀ s d,
    ((∃ f, f ∈ changed ∧ (s, d) ∈ relationsFor f)
       ∨ ((s ∉ changed) ∧ (s ∉ deleted) ∧ (s, d) ∈ relationEdges old))
    ↔ (s, d) ∈ relationEdges new) as Hiff.
  { intros s d. split.
    - intros [(f & Hf & Hin)|(? & ? & ?)].
      + by apply (Hchanged f s d Hf) in Hin as [_ ?].
      + by apply Hkept.
    - intros Hin. destruct (decide (s ∈ changed)) as [Hc|Hc].
      + left. exists s. split; [done|]. by apply Hchanged.
      + right. destruct (decide (s ∈ deleted)) as [Hd|Hd].
        * by destruct (Hdeleted s d Hd Hc).
        * split_and!; [done..|]. by apply Hkept. }
  assert (∀ s d, hasEdge patched s d ↔ hasEdge (build new) s d) as Hforward.
  { intros s d. unfold patched.
    rewrite (holds_patchFiles hasEdge hasEdge_addEdge hasEdge_removeOutgoing).
    by rewrite !hasEdge_build. }
  split_and!; [done| |].
  - intros s d. unfold patched.
    rewrite (holds_patchFiles hasReverseEdge hasReverseEdge_addEdge
               hasReverseEdge_removeOutgoing).
    by rewrite !hasReverseEdge_build.
  - apply adjacencyList_ext; [|apply noEmptyEntry_build|done].
    apply noEmptyEntry_patchFiles, noEmptyEntry_build.
Qed.

Lemma elem_of_relationEdges_before s d :
  (s, d) ∈ relationEdges before ↔
    (s, d) ∈ [("/a.ts", "/b.ts"); ("/b.ts", "/c.ts"); ("/c.ts", "/a.ts"); ("/d.ts", "/a.ts")].
Proof. done. Qed.

Lemma elem_of_relationEdges_after s d :
  (s, d) ∈ relationEdges after ↔
    (s, d) ∈ [("/a.ts", "/b.ts"); ("/b.ts", "/c.ts"); ("/c.ts", "/b.ts")].
Proof. done. Qed.

(** C2 run: c changes its import from a to b and d is deleted; the edge
    c -> b is in the patched graph exactly as in the fresh build. *)
Lemma patchFiles_equals_build_witness :
  hasEdge (patchFiles ["/c.ts"] ["/d.ts"] relationsAfter (build before)) "/c.ts" "/b.ts"
    ↔ hasEdge (build after) "/c.ts" "/b.ts".
Proof.
  refine (proj1 (patchFiles_equals_build before after ["/c.ts"] ["/d.ts"]
                   relationsAfter _ _ _) "/c.ts" "/b.ts").
  - intros f s d ->%list_elem_of_singleton.
    rewrite elem_of_relationEdges_after. unfold relationsAfter. simpl.
    rewrite !elem_of_cons, elem_of_nil. split.
    + intros [[= -> ->]|[]]. split; [done|]. by right; right; left.
    + intros [-> [[=]|[[=]|[[= ->]|[]]]]]. by left.
  - intros s d Hc%not_elem_of_cons Hd%not_elem_of_cons.
    rewrite elem_of_relationEdges_before, elem_of_relationEdges_after.
    rewrite !elem_of_cons, !elem_of_nil. split.
    + intros [[= -> ->]|[[= -> ->]|[[= -> ->]|[[= -> ->]|[]]]]];
        [by left|by right; left|by destruct Hc|by destruct Hd].
    + intros [[= -> ->]|[[= -> ->]|[[= -> ->]|[]]]];
        [by left|by right; left|by destruct Hc].
  - intros s d ->%list_elem_of_singleton _.
    rewrite elem_of_relationEdges_after, !elem_of_cons, elem_of_nil.
    intros [[=]|[[=]|[[=]|[]]]].
Defined.

End GraphEdgeFacts.


(** * The dependency graph: walks, reachability and components *)

Module GraphReachFacts.
Import DependencyGraph.

Implicit Types (g : Graph) (f s t w x y : string) (l c path : list string).

Lemma elem_of_dependencies g f w : w ∈ dependencies g f ↔ hasEdge g f w.
Proof. unfold dependencies, hasEdge. apply elem_of_elements. Qed.

Lemma NoDup_nodes g : NoDup (nodes g).
Proof. unfold nodes. apply NoDup_elements. Qed.

Lemma hasEdge_nodes g f w : hasEdge g f w → f ∈ nodes g ∧ w ∈ nodes g.
Proof.
  unfold hasEdge, entry, nodes. intros Hw.
  destruct (adjacencyList g !! f) as [X|] eqn:Hf; [simpl in Hw|set_solver].
  rewrite !elem_of_elements, !elem_of_union. split.
  - left. apply elem_of_dom. by exists X.
  - right. apply elem_of_union_list. exists X. split; [|done].
    apply list_elem_of_fmap. exists (f, X). split; [done|].
    by apply elem_of_map_to_list.
Qed.

(** ** Walks *)

Lemma walk_app g x l1 y l2 t :
  walk g x l1 y → walk g y l2 t → walk g x (l1 ++ l2) t.
Proof. induction 1; intros; simpl; [done|]. constructor; auto. Qed.

Lemma walk_step g f w : hasEdge g f w → walk g f [w] w.
Proof. intros. by repeat constructor. Qed.

Lemma walk_nil_inv g x t : walk g x [] t → x = t.
Proof. by inversion 1. Qed.

(** A walk can be cut at any file it visits. *)
Lemma walk_split g x l1 y l2 t :
  walk g x (l1 ++ y :: l2) t → walk g x (l1 ++ [y]) y ∧ walk g y l2 t.
Proof.
  revert x. induction l1 as [|z l1 IH]; intros x; simpl; inversion 1; subst.
  - split; [by apply walk_step|done].
  - destruct (IH z) as [? ?]; [done|]. split; [by constructor|done].
Qed.

Lemma walk_nodes g x l t : walk g x l t → ∀ y, y ∈ l → y ∈ nodes g.
Proof.
  induction 1 as [|f w l t Hedge _ IH]; intros y Hy; [by apply elem_of_nil in Hy|].
  apply elem_of_cons in Hy as [->|?]; [|by apply IH].
  by apply hasEdge_nodes in Hedge as [_ ?].
Qed.

Lemma walk_start_node g x l t : walk g x l t → l ≠ [] → x ∈ nodes g.
Proof. destruct 1 as [|f w l t Hedge _]; [done|]. by apply hasEdge_nodes in Hedge as [? _]. Qed.

(** Every walk contains one that repeats no file. *)
Lemma walk_simple g x l t :
  walk g x l t → ∃ l', walk g x l' t ∧ NoDup (x :: l') ∧ l' ⊆ l.
Proof.
  induction 1 as [f|f w l t Hedge Hwalk (l' & Hwalk' & Hnd & Hsub)].
  - exists []. split_and!; [constructor|by apply NoDup_singleton|done].
  - destruct (decide (f ∈ w :: l')) as [Hin|Hout].
    + apply list_elem_of_split in Hin as (l1 & l2 & Heq).
      destruct l1 as [|z l1]; simplify_eq/=.
      * exists l2. split_and!; [done|done|set_solver].
      * apply walk_split in Hwalk' as [_ Hrest].
        exists l2. split_and!; [done| |set_solver].
        apply NoDup_cons in Hnd as [_ Hnd]. by apply NoDup_app in Hnd as (_ & _ & ?).
    + exists (w :: l'). split_and!; [by constructor|by apply NoDup_cons|set_solver].
Qed.

(** ** Reachability *)

Lemma elem_of_expand g (seen : gset string) x :
  x ∈ expand g seen ↔ x ∈ seen ∨ ∃ f, f ∈ seen ∧ hasEdge g f x.
Proof.
  unfold expand. rewrite elem_of_union, elem_of_union_list. split.
  - intros [?|(X & HX & Hx)]; [by left|right].
    apply list_elem_of_fmap in HX as (f & -> & Hf).
    exists f. by rewrite elem_of_elements in Hf.
  - intros [?|(f & Hf & Hx)]; [by left|right].
    exists (entry (adjacencyList g) f). split; [|done].
    apply list_elem_of_fmap. exists f. by rewrite elem_of_elements.
Qed.

Lemma iter_expand_extensive g n (seen : gset string) x :
  x ∈ seen → x ∈ Nat.iter n (expand g) seen.
Proof.
  induction n as [|n IH]; simpl; [done|].
  intros. apply elem_of_expand. left. by apply IH.
Qed.

Lemma iter_expand_sound g n (seen : gset string) x :
  x ∈ Nat.iter n (expand g) seen → ∃ f l, f ∈ seen ∧ walk g f l x.
Proof.
  revert x. induction n as [|n IH]; simpl; intros x Hx.
  - exists x, []. split; [done|constructor].
  - apply elem_of_expand in Hx as [Hx|(y & Hy & Hedge)]; [by apply IH|].
    apply IH in Hy as (f & l & Hf & Hwalk).
    exists f, (l ++ [x]). split; [done|].
    eapply walk_app; [done|by apply walk_step].
Qed.

Lemma iter_expand_complete g x l t :
  walk g x l t → ∀ (n : nat) (seen : gset string),
  x ∈ seen → (length l ≤ n)%nat → t ∈ Nat.iter n (expand g) seen.
Proof.
  induction 1 as [f|f w l t Hedge _ IH]; intros n seen Hseen Hlen.
  - by apply iter_expand_extensive.
  - destruct n as [|n]; [simpl in Hlen; lia|].
    rewrite Nat.iter_succ_r. apply IH; [|simpl in Hlen; lia].
    apply elem_of_expand. right. by exists f.
Qed.

(** [reachable] is reachability along forward edges. *)
Lemma elem_of_reachable g f x : x ∈ reachable g f ↔ ∃ l, walk g f l x.
Proof.
  unfold reachable. split.
  - intros (f' & l & ->%elem_of_singleton & Hwalk)%iter_expand_sound. by exists l.
  - intros (l & Hwalk). apply walk_simple in Hwalk as (l' & Hwalk & Hnd & _).
    eapply iter_expand_complete; [done|set_solver|].
    destruct l' as [|w l']; [simpl; lia|].
    assert (length (f :: w :: l') ≤ length (nodes g))%nat as Hlen; [|simpl in *; lia].
    apply submseteq_length, NoDup_submseteq; [done|].
    intros y [->|Hy]%elem_of_cons.
    + by eapply walk_start_node.
    + by eapply walk_nodes.
Qed.

Lemma reachable_refl g f : f ∈ reachable g f.
Proof. apply elem_of_reachable. exists []. constructor. Qed.

Lemma reachable_trans g x y z :
  y ∈ reachable g x → z ∈ reachable g y → z ∈ reachable g x.
Proof.
  rewrite !elem_of_reachable. intros (l1 & ?) (l2 & ?).
  exists (l1 ++ l2). by eapply walk_app.
Qed.

(** ** Components *)

Lemma elem_of_componentOf g f w :
  w ∈ componentOf g f ↔ w ∈ nodes g ∧ w ∈ reachable g f ∧ f ∈ reachable g w.
Proof. unfold componentOf. rewrite list_elem_of_filter. tauto. Qed.

Lemma NoDup_componentOf g f : NoDup (componentOf g f).
Proof. apply NoDup_filter, NoDup_nodes. Qed.

Lemma components_from g todo (assigned : gset string) c :
  c ∈ components g todo assigned → ∃ f, f ∈ todo ∧ c = componentOf g f.
Proof.
  revert assigned. induction todo as [|f todo IH]; intros assigned; simpl.
  - by intros ?%elem_of_nil.
  - case_decide.
    + intros (f' & ? & ?)%IH. exists f'. set_solver.
    + intros [->|(f' & ? & ?)%IH]%elem_of_cons; [exists f|exists f']; set_solver.
Qed.

Lemma components_cover g todo (assigned : gset string) f :
  f ∈ todo → f ∉ assigned → f ∈ nodes g →
  ∃ c, c ∈ components g todo assigned ∧ f ∈ c.
Proof.
  intros Hin Hfree Hnode. revert assigned Hin Hfree.
  induction todo as [|h todo IH]; intros assigned Hin Hfree; simpl.
  - by apply elem_of_nil in Hin.
  - case_decide as Hh.
    + apply IH; [|done]. set_solver.
    + destruct (decide (f ∈ componentOf g h)) as [Hc|Hc].
      * exists (componentOf g h). split; [by left|done].
      * assert (f ≠ h) as Hne.
        { intros ->. apply Hc, elem_of_componentOf.
          split_and!; [done|apply reachable_refl..]. }
        destruct (IH (assigned ∪ list_to_set (componentOf g h))) as (c & ? & ?);
          [set_solver|set_solver|].
        exists c. split; [by right|done].
Qed.

End GraphReachFacts.


(** * The dependency graph: [hasCycle] against [cyclePaths] *)

Module GraphCycleFacts.
Import DependencyGraph Examples GraphEdgeFacts GraphReachFacts.

Implicit Types (g : Graph) (f s t w x y : string) (l c path allowed p : list string).

Lemma selfLoop_hasEdge g f : selfLoop g f = true ↔ hasEdge g f f.
Proof. unfold selfLoop, hasEdge. apply bool_decide_eq_true. Qed.

(** ** The search from one start file *)

(** Every path the search lists is a simple cycle, when the search is
    entered with a simple walk from the start file to the current one. *)
Lemma circuit_sound g s allowed fuel path f p :
  p ∈ circuit g fuel s allowed path f →
  (∃ l, reverse (f :: path) = s :: l ∧ NoDup (s :: l) ∧ walk g s l f) →
  simpleCycle g p.
Proof.
  revert path f. induction fuel as [|fuel IH]; intros path f; simpl.
  { by intros ?%elem_of_nil. }
  intros (w & Hp & Hw%elem_of_dependencies)%list_elem_of_bind (l & Hrev & Hnd & Hwalk).
  destruct (decide (w = s)) as [->|Hne].
  - apply list_elem_of_singleton in Hp as ->.
    exists s, l. rewrite Hrev. split_and!; [done..|].
    eapply walk_app; [done|by apply walk_step].
  - case_decide as Hok; [|by apply elem_of_nil in Hp].
    destruct Hok as [_ Hfresh]. apply (IH _ _ Hp).
    exists (l ++ [w]). rewrite reverse_cons, Hrev. split_and!; [done| |].
    + rewrite app_comm_cons. apply NoDup_app. split_and!; [done| |apply NoDup_singleton].
      intros y Hy ->%list_elem_of_singleton. apply Hfresh.
      by rewrite <- elem_of_reverse, Hrev.
    + eapply walk_app; [done|by apply walk_step].
Qed.

(** The search lists a cycle whenever a simple walk leads from the current
    file back to the start through allowed files not yet on the path. *)
Lemma circuit_complete g s allowed f l :
  walk g f l s → ∀ (fuel : nat) path,
  l ≠ [] → NoDup l →
  (∀ x, x ∈ l → x ≠ s → x ∈ allowed ∧ x ∉ f :: path) →
  (length l ≤ fuel)%nat →
  ∃ p, p ∈ circuit g fuel s allowed path f.
Proof.
  induction 1 as [f|f w l t Hedge Hwalk IH]; intros fuel path Hne Hnd Hok Hlen; [done|].
  destruct fuel as [|fuel]; [simpl in Hlen; lia|]. simpl.
  destruct (decide (w = t)) as [->|Hwt].
  - exists (reverse (f :: path)). apply list_elem_of_bind. exists t.
    split; [|by apply elem_of_dependencies]. rewrite decide_True by done. by left.
  - apply NoDup_cons in Hnd as [Hwl Hnd].
    destruct (IH fuel (f :: path)) as (p & Hp).
    + intros ->. by apply walk_nil_inv in Hwalk.
    + done.
    + intros x Hx Hxt. destruct (Hok x) as [? ?]; [by right|done|].
      split; [done|]. apply not_elem_of_cons. split; [|done]. by intros ->.
    + simpl in Hlen. lia.
    + exists p. apply list_elem_of_bind. exists w.
      split; [|by apply elem_of_dependencies].
      rewrite decide_False by done. rewrite decide_True; [done|].
      apply Hok; [by left|done].
Qed.

(** ** Johnson's enumeration over one component *)

Lemma johnson_sound g c p : p ∈ johnson g c → simpleCycle g p.
Proof.
  induction c as [|s rest IH]; cbn [johnson]; [by intros ?%elem_of_nil|].
  intros [Hp|Hp]%elem_of_app; [|by apply IH].
  apply (circuit_sound _ _ _ _ _ _ _ Hp).
  exists []. split_and!; [done|apply NoDup_singleton|constructor].
Qed.

Lemma johnson_selfLoop g c f :
  f ∈ c → hasEdge g f f → ∃ p, p ∈ johnson g c.
Proof.
  intros Hin Hloop. induction c as [|s rest IH]; [by apply elem_of_nil in Hin|].
  apply elem_of_cons in Hin as [->|Hin].
  - exists [s]. simpl. apply elem_of_app. left.
    apply list_elem_of_bind. exists s. split; [|by apply elem_of_dependencies].
    rewrite decide_True by done. by left.
  - destruct (IH Hin) as (p & Hp). exists p. simpl. apply elem_of_app. by right.
Qed.

(** A component with two files has a cycle through its first file, and
    the search from that file finds it. *)
Lemma johnson_component g r s t rest :
  componentOf g r = s :: rest → t ∈ rest → ∃ p, p ∈ johnson g (s :: rest).
Proof.
  intros Hc Ht.
  pose proof (NoDup_componentOf g r) as Hnd. rewrite Hc in Hnd.
  assert (∀ x, x ∈ s :: rest ↔ x ∈ nodes g ∧ x ∈ reachable g r ∧ r ∈ reachable g x)
    as Hmem by (intros x; by rewrite <- Hc, elem_of_componentOf).
  destruct (proj1 (Hmem s)) as (_ & Hrs & Hsr); [by left|].
  destruct (proj1 (Hmem t)) as (_ & Hrt & Htr); [by right|].
  assert (s ≠ t) as Hst by (apply NoDup_cons in Hnd as [? _]; by intros ->).
  (* a closed walk s -> w ->* t ->* s *)
  pose proof (reachable_trans _ _ _ _ Hsr Hrt) as Hs_t.
  pose proof (reachable_trans _ _ _ _ Htr Hrs) as Ht_s.
  apply elem_of_reachable in Hs_t as (l1 & Hw1).
  destruct Hw1 as [|s w l1 t Hedge Hw1]; [done|].
  assert (s ∈ reachable g w) as (l2 & Hback)%elem_of_reachable.
  { eapply reachable_trans; [|done]. apply elem_of_reachable. by exists l1. }
  apply walk_simple in Hback as (l & Hback & Hsimple & _).
  (* every file on it belongs to the component *)
  assert (∀ x, x ∈ w :: l → x ∈ s :: rest) as Hinside.
  { intros x Hx. apply Hmem.
    assert (walk g s (w :: l) s) as Hcycle by (by constructor).
    apply list_elem_of_split in Hx as (la & lb & Heq). rewrite Heq in Hcycle.
    apply walk_split in Hcycle as [Hto Hfrom]. split_and!.
    - apply (walk_nodes _ _ _ _ Hto). apply elem_of_app. right. by left.
    - apply (reachable_trans _ _ s); [done|]. apply elem_of_reachable. by eexists.
    - apply (reachable_trans _ _ s); [|done]. apply elem_of_reachable. by eexists. }
  cbn [johnson]. destruct (circuit_complete g s rest s (w :: l)) with
    (fuel := length (s :: rest)) (path := @nil string) as (p & Hp).
  - by constructor.
  - done.
  - done.
  - intros x Hx Hxs. specialize (Hinside x Hx).
    apply elem_of_cons in Hinside as [->|?]; [done|]. split; [done|].
    by intros ?%list_elem_of_singleton.
  - by apply submseteq_length, NoDup_submseteq.
  - exists p. apply elem_of_app. by left.
Qed.

(** ** Every simple cycle is listed *)

Lemma simpleCycle_rotate g a b :
  simpleCycle g (a ++ b) → b ≠ [] → simpleCycle g (b ++ a).
Proof.
  intros (s & l & Heq & Hnd & Hwalk) Hb.
  destruct a as [|s' a']; [rewrite app_nil_r; by exists s, l|].
  destruct b as [|t b']; [done|]. simplify_eq/=.
  rewrite <- app_assoc in Hwalk. simpl in Hwalk.
  apply walk_split in Hwalk as [Hto Hfrom].
  exists t, (b' ++ s :: a'). split_and!; [done| |].
  - change (NoDup ((t :: b') ++ (s :: a'))).
    by rewrite (Permutation_app_comm (t :: b') (s :: a')).
  - replace ((b' ++ s :: a') ++ [t]) with ((b' ++ [s]) ++ (a' ++ [t]))
      by (by rewrite <- !app_assoc).
    by eapply walk_app.
Qed.

Lemma simpleCycle_node g p x : simpleCycle g p → x ∈ p → x ∈ nodes g.
Proof.
  intros (s & l & -> & _ & Hwalk) [->|Hx]%elem_of_cons.
  - eapply walk_start_node; [done|]. by destruct l.
  - eapply walk_nodes; [done|]. apply elem_of_app. by left.
Qed.

Lemma simpleCycle_reachable g p x y :
  simpleCycle g p → x ∈ p → y ∈ p → y ∈ reachable g x.
Proof.
  intros Hcycle (a & b & ->)%list_elem_of_split Hy.
  apply (simpleCycle_rotate _ a (x :: b)) in Hcycle as (s & l & Heq & _ & Hwalk);
    [|done].
  simplify_eq/=. apply elem_of_reachable.
  assert (y = s ∨ y ∈ b ++ a) as [->|Hin] by set_solver.
  - by eexists.
  - apply list_elem_of_split in Hin as (l1 & l2 & Heq). rewrite Heq in Hwalk.
    rewrite <- app_assoc in Hwalk. simpl in Hwalk.
    apply walk_split in Hwalk as [? _]. by eexists.
Qed.

(** The search lists the very cycle that leads back to the start. *)
Lemma circuit_lists g s allowed l :
  ∀ (fuel : nat) path f,
  walk g f (l ++ [s]) s → NoDup l →
  (∀ x, x ∈ l → x ≠ s ∧ x ∈ allowed ∧ x ∉ f :: path) →
  (length l < fuel)%nat →
  reverse (f :: path) ++ l ∈ circuit g fuel s allowed path f.
Proof.
  induction l as [|x l IH]; intros fuel path f Hwalk Hnd Hok Hlen;
    (destruct fuel as [|fuel]; [simpl in Hlen; lia|]); cbn [circuit];
    inversion Hwalk as [|? ? ? ? Hedge Hrest]; subst;
    apply list_elem_of_bind.
  - exists s. split; [|by apply elem_of_dependencies].
    rewrite decide_True by done. rewrite app_nil_r. by left.
  - exists x. split; [|by apply elem_of_dependencies].
    destruct (Hok x) as (Hxs & Hx & Hfresh); [by left|].
    rewrite decide_False by done. rewrite decide_True by done.
    apply NoDup_cons in Hnd as [Hxl Hnd].
    replace (reverse (f :: path) ++ x :: l) with (reverse (x :: f :: path) ++ l)
      by (by rewrite (reverse_cons (f :: path) x), <- app_assoc).
    apply IH; [done|done| |simpl in Hlen; lia].
    intros y Hy. destruct (Hok y) as (? & ? & ?); [by right|].
    split_and!; [done..|]. apply not_elem_of_cons. split; [|done]. by intros ->.
Qed.

Lemma johnson_complete g c p :
  simpleCycle g p → (∀ x, x ∈ p → x ∈ c) → NoDup c →
  ∃ p', rotation p p' ∧ p' ∈ johnson g c.
Proof.
  intros Hcycle Hsub Hnd. induction c as [|s rest IH].
  { destruct Hcycle as (s & l & -> & _). by destruct (not_elem_of_nil s); apply Hsub; left. }
  apply NoDup_cons in Hnd as [Hs Hnd]. cbn [johnson].
  destruct (decide (s ∈ p)) as [Hin|Hout].
  - apply list_elem_of_split in Hin as (a & b & ->).
    pose proof (simpleCycle_rotate _ a (s :: b) Hcycle) as (s' & l & Heq & Hndp & Hwalk);
      [done|].
    simplify_eq/=. exists (s' :: b ++ a). split; [by exists a, (s' :: b)|].
    apply elem_of_app. left. apply NoDup_cons in Hndp as [Hsl Hndl].
    assert (∀ x, x ∈ b ++ a → x ∈ rest) as Hrest.
    { intros x Hx. assert (x ∈ s' :: rest) as [->|?]%elem_of_cons by set_solver; done. }
    apply (circuit_lists g s' rest (b ++ a) (length (s' :: rest)) [] s'); [done..| |].
    + intros x Hx. split_and!; [by intros ->|by apply Hrest|].
      intros ->%list_elem_of_singleton. done.
    + simpl. apply Nat.lt_succ_r. by apply submseteq_length, NoDup_submseteq.
  - destruct IH as (p' & ? & ?); [|done|].
    + intros x Hx. assert (x ∈ s :: rest) as [->|?]%elem_of_cons by auto; done.
    + exists p'. split; [done|]. apply elem_of_app. by right.
Qed.

(** ** The two operations *)

Lemma tarjanSCC_from g c : c ∈ tarjanSCC g → ∃ f, f ∈ nodes g ∧ c = componentOf g f.
Proof. apply components_from. Qed.

Lemma tarjanSCC_cover g f : f ∈ nodes g → ∃ c, c ∈ tarjanSCC g ∧ f ∈ c.
Proof. intros. by apply components_cover; [|set_solver|]. Qed.

Lemma tarjanSCC_nodes g c f : c ∈ tarjanSCC g → f ∈ c → f ∈ nodes g.
Proof.
  intros (r & _ & ->)%tarjanSCC_from Hf. by apply elem_of_componentOf in Hf as [? _].
Qed.

Lemma elem_of_cyclePaths g p :
  p ∈ cyclePaths g ↔ ∃ c, c ∈ tarjanSCC g ∧ nontrivial g c = true ∧ p ∈ johnson g c.
Proof.
  unfold cyclePaths. rewrite list_elem_of_bind. split.
  - intros (c & Hp & Hc). exists c. destruct (nontrivial g c); [done|].
    by apply elem_of_nil in Hp.
  - intros (c & Hc & Hnt & Hp). exists c. by rewrite Hnt.
Qed.

(** Every path [cyclePaths] lists is a simple cycle of the graph. *)
Lemma cyclePaths_sound g p : p ∈ cyclePaths g → simpleCycle g p.
Proof. intros (c & _ & _ & Hp)%elem_of_cyclePaths. by eapply johnson_sound. Qed.

(** Every simple cycle of the graph is listed, written from one of its
    files. *)
Lemma cyclePaths_complete g p :
  simpleCycle g p → ∃ p', rotation p p' ∧ p' ∈ cyclePaths g.
Proof.
  intros Hcycle. pose proof Hcycle as (s & l & Heq & Hndp & Hwalk).
  assert (s ∈ p) as Hs by (rewrite Heq; by left).
  destruct (tarjanSCC_cover g s) as (c & Hc & Hsc); [by eapply simpleCycle_node|].
  pose proof Hc as (r & _ & Hr)%tarjanSCC_from.
  assert (∀ x, x ∈ p → x ∈ c) as Hsub.
  { intros x Hx. rewrite Hr in Hsc |- *.
    apply elem_of_componentOf in Hsc as (_ & Hrs & Hsr).
    apply elem_of_componentOf. split_and!.
    - by eapply simpleCycle_node.
    - eapply reachable_trans; [done|]. by eapply simpleCycle_reachable.
    - eapply reachable_trans; [|done]. by eapply simpleCycle_reachable. }
  destruct (johnson_complete g c p) as (p' & Hrot & Hp'); [done..| |].
  { rewrite Hr. apply NoDup_componentOf. }
  exists p'. split; [done|]. apply elem_of_cyclePaths. exists c.
  split_and!; [done| |done]. unfold nontrivial. apply orb_true_iff.
  destruct l as [|t l].
  - right. apply existsb_exists. exists s. rewrite <- list_elem_of_In.
    split; [done|]. apply selfLoop_hasEdge. by inversion Hwalk.
  - left. apply Nat.ltb_lt.
    assert (length p ≤ length c)%nat as Hlen
      by (by apply submseteq_length, NoDup_submseteq).
    rewrite Heq in Hlen. simpl in Hlen. lia.
Qed.

Lemma hasCycle_spec g :
  hasCycle g = true ↔
    (∃ c, c ∈ tarjanSCC g ∧ (1 < length c)%nat) ∨ (∃ f, f ∈ nodes g ∧ hasEdge g f f).
Proof.
  unfold hasCycle. rewrite orb_true_iff, !existsb_exists.
  setoid_rewrite <- list_elem_of_In. setoid_rewrite Nat.ltb_lt.
  by setoid_rewrite selfLoop_hasEdge.
Qed.

Lemma nontrivial_spec g c :
  nontrivial g c = true ↔ (1 < length c)%nat ∨ ∃ f, f ∈ c ∧ hasEdge g f f.
Proof.
  unfold nontrivial. rewrite orb_true_iff, existsb_exists, Nat.ltb_lt.
  setoid_rewrite <- list_elem_of_In. by setoid_rewrite selfLoop_hasEdge.
Qed.

Lemma johnson_nontrivial g c :
  c ∈ tarjanSCC g → nontrivial g c = true → ∃ p, p ∈ johnson g c.
Proof.
  intros (r & _ & Hc)%tarjanSCC_from [Hlen|(f & Hf & Hloop)]%nontrivial_spec.
  - destruct c as [|s [|t rest]]; [simpl in Hlen; lia..|].
    eapply (johnson_component g r s t); [done|by left].
  - by eapply johnson_selfLoop.
Qed.

Lemma cycle_detected_iff_listed g :
  hasCycle g = true ↔ cyclePaths g ≠ [].
Proof.
  rewrite hasCycle_spec. split.
  - intros Hcyc.
    assert (∃ c, c ∈ tarjanSCC g ∧ nontrivial g c = true) as (c & Hc & Hnt).
    { destruct Hcyc as [(c & Hc & Hlen)|(f & Hf & Hloop)].
      - exists c. split; [done|]. apply nontrivial_spec. by left.
      - destruct (tarjanSCC_cover g f Hf) as (c & Hc & Hfc).
        exists c. split; [done|]. apply nontrivial_spec. right. by exists f. }
    destruct (johnson_nontrivial g c Hc Hnt) as (p & Hp).
    assert (p ∈ cyclePaths g) as Hin by (apply elem_of_cyclePaths; by exists c).
    intros Hnil. rewrite Hnil in Hin. by apply elem_of_nil in Hin.
  - intros Hne. destruct (cyclePaths g) as [|p ps] eqn:Heq; [done|].
    assert (p ∈ cyclePaths g) as (c & Hc & Hnt & _)%elem_of_cyclePaths
      by (rewrite Heq; by left).
    apply nontrivial_spec in Hnt as [Hlen|(f & Hf & Hloop)].
    + left. by exists c.
    + right. exists f. split; [by eapply tarjanSCC_nodes|done].
Qed.

(** C1. For the graph built from any relation set, [hasCycle()] is true
    exactly when [cyclePaths()] is not empty; and a relation from a file to
    itself makes [hasCycle()] true. *)
Theorem hasCycle_iff_cyclePaths (o : Options) :
  (hasCycle (build o) = true ↔ (0 < length (cyclePaths (build o)))%nat)
  ∧ (∀ f, (f, f) ∈ relationEdges o → hasCycle (build o) = true).
Proof.
  split.
  - rewrite cycle_detected_iff_listed.
    destruct (cyclePaths (build o)); simpl; split; intros; first [done | lia].
  - intros f Hloop%hasEdge_build. apply hasCycle_spec. right.
    exists f. split; [|done]. by apply hasEdge_nodes in Hloop as [? _].
Qed.

(** C1 run: b imports itself. *)
Lemma hasCycle_iff_cyclePaths_witness :
  hasCycle (build selfImport) = true.
Proof.
  refine (proj2 (hasCycle_iff_cyclePaths selfImport) "/b.ts" _).
  by right; left.
Defined.

(** [cyclePaths] on the cycle a -> b -> c -> a with d -> a beside it. *)
Example cyclePaths_before :
  hasCycle (build before) = true
  ∧ cyclePaths (build before) = [["/c.ts"; "/a.ts"; "/b.ts"]].
Proof. by vm_compute. Qed.

Example cyclePaths_after :
  hasCycle (build after) = true
  ∧ cyclePaths (build after) = [["/c.ts"; "/b.ts"]].
Proof. by vm_compute. Qed.

End GraphCycleFacts.


(** * Watcher ownership: the whole decision, release and heartbeat *)

Module OwnershipMore.
Import Ownership OwnershipTerms Examples OwnershipFacts.

Section Protocol.
Context {rt : Runtime}.
Implicit Types (db : FakeStore) (p q : Z) (options : AcquireOptions) (o : WatcherOwnerRow).

Local Abbreviation installed p options :=
  {| row := Some (stamped p (instanceId options)) |}.

Lemma acquire_owner_store db p options db' :
  acquireWatcherRole db p options = (owner, db') → db' = installed p options.
Proof.
  destruct (row db) as [o|] eqn:Hrow.
  - rewrite (acquire_present _ _ _ _ Hrow). repeat case_match; by intros [= <-].
  - rewrite (acquire_absent _ _ _ Hrow). by intros [= <-].
Qed.

(** X1. [acquire] has two outcomes only: [reader] with the store untouched,
    exactly when the row is kept; otherwise [owner] with the store holding
    the caller's row and nothing else. *)
Theorem acquire_two_outcomes db p options :
  (acquireWatcherRole db p options = (reader, db) ∧ kept db p options)
  ∨ (acquireWatcherRole db p options = (owner, installed p options)
     ∧ ¬ kept db p options).
Proof.
  unfold kept. destruct (row db) as [o|] eqn:Hrow.
  - rewrite (acquire_present _ _ _ _ Hrow).
    destruct (pidRecycled options p o) eqn:Hrec.
    { right. split; [done|]. intros (o' & [= <-] & ? & _). congruence. }
    destruct (isAliveOf options (pid o)) eqn:Halive; simpl.
    2:{ right. split; [done|]. intros (o' & [= <-] & _ & ? & _). congruence. }
    destruct (Z.ltb_spec (heartbeatAgeSeconds options o) (staleOf options)).
    + left. split; [done|]. by exists o.
    + right. split; [done|]. intros (o' & [= <-] & _ & _ & ?). lia.
  - right. split; [by apply acquire_absent|]. by intros (o & ? & _).
Qed.

(** X2. A row whose pid is dead is always taken over, whatever its
    heartbeat, the threshold and the identifiers. *)
Theorem acquire_dead_owner db p options o :
  row db = Some o →
  isAliveOf options (pid o) = false →
  acquireWatcherRole db p options = (owner, installed p options).
Proof.
  intros Hrow Hdead. rewrite (acquire_present _ _ _ _ Hrow).
  unfold pidRecycled. by rewrite Hdead.
Qed.

(** X3. PID recycling is never inferred when one side has no identifier
    (absent or the empty string), when the identifiers are equal or when the
    pids are equal: an alive owner with a fresh heartbeat keeps the row. *)
Theorem acquire_without_recycling db p options o :
  row db = Some o →
  isAliveOf options (pid o) = true →
  (heartbeatAgeSeconds options o < staleOf options)%Z →
  truthy (instanceId options) = false ∨ truthy (instance_id o) = false
    ∨ instance_id o = instanceId options ∨ pid o = p →
  acquireWatcherRole db p options = (reader, db).
Proof.
  intros Hrow Halive Hfresh Hwhy. rewrite (acquire_present _ _ _ _ Hrow).
  assert (pidRecycled options p o = false) as ->.
  { unfold pidRecycled, strict_ne. rewrite Halive. simpl.
    destruct Hwhy as [->|[->|[->| ->]]].
    - done.
    - by rewrite andb_false_r.
    - rewrite bool_decide_eq_true_2 by done. simpl. by rewrite !andb_false_r.
    - rewrite Z.eqb_refl. simpl. by rewrite !andb_false_r. }
  rewrite Halive. apply Z.ltb_lt in Hfresh. by rewrite Hfresh.
Qed.

(** X4. Two live processes with different pids and different non-empty
    identifiers take the row from each other on every call: from the row of
    [p], [q] becomes owner, and on the next call [p] becomes owner again,
    whatever the heartbeats and thresholds. *)
Theorem acquire_alternates db p q options_p options_q o a b :
  row db = Some o → pid o = p → instance_id o = Some a →
  instanceId options_p = Some a → instanceId options_q = Some b →
  a ≠ "" → b ≠ "" → a ≠ b → p ≠ q →
  isAliveOf options_q p = true → isAliveOf options_p q = true →
  acquireWatcherRole db q options_q = (owner, installed q options_q)
  ∧ acquireWatcherRole (installed q options_q) p options_p
      = (owner, installed p options_p).
Proof.
  intros Hrow Hp Ha Hid_p Hid_q Ha_ne Hb_ne Hab Hpq Halive_p Halive_q.
  assert (∀ x : string, x ≠ "" → truthy (Some x) = true) as Htruthy.
  { intros x Hx. simpl. apply negb_true_iff, String.eqb_neq. done. }
  split.
  - rewrite (acquire_present _ _ _ _ Hrow). unfold pidRecycled, strict_ne.
    rewrite Hp, Halive_p, Ha, Hid_q, !Htruthy by done.
    rewrite bool_decide_eq_false_2 by congruence.
    apply Z.eqb_neq in Hpq. by rewrite Hpq.
  - rewrite (acquire_present _ _ _ (stamped q (instanceId options_q))) by done.
    unfold pidRecycled, strict_ne. simpl.
    rewrite Halive_q, Hid_p, Hid_q, !Htruthy by done.
    rewrite bool_decide_eq_false_2 by congruence.
    assert (q ≠ p) as Hqp%Z.eqb_neq by done. by rewrite Hqp.
Qed.

(** X5. [release] deletes the row only for the pid that owns it: after the
    owner's release any caller acquires [owner]; a release by another pid
    leaves the store as it was. *)
Theorem release_only_by_owner db p q options o :
  row db = Some o →
  (pid o = p →
     row (releaseWatcherRole db p) = None
     ∧ acquireWatcherRole (releaseWatcherRole db p) q options
         = (owner, installed q options))
  ∧ (pid o ≠ p → releaseWatcherRole db p = db).
Proof.
  intros Hrow. split.
  - intros Hp.
    assert (releaseWatcherRole db p = {| row := None |}) as ->.
    { unfold releaseWatcherRole. simpl. by rewrite Hrow, Hp, Z.eqb_refl. }
    split; [done|]. by apply acquire_absent.
  - intros Hne%Z.eqb_neq. unfold releaseWatcherRole. simpl. by rewrite Hrow, Hne.
Qed.

(** X6. A heartbeat by the owner restamps the row and changes nothing else,
    so that a later caller within the threshold of the new stamp stays
    [reader]; a heartbeat by another pid, or on an empty store, changes
    nothing. *)
Theorem heartbeat_refreshes_owner db p q options o t :
  row db = Some o →
  Date_getTime Date_toISOString = Some t →
  (pid o = p →
     row (updateHeartbeat db p)
       = Some {| pid := pid o; heartbeat_at := Date_toISOString;
                 instance_id := instance_id o |}
     ∧ (isAliveOf options (pid o) = true →
        pidRecycled options q o = false →
        ((nowOf options - t) / 1000 < staleOf options)%Z →
        acquireWatcherRole (updateHeartbeat db p) q options
          = (reader, updateHeartbeat db p)))
  ∧ (pid o ≠ p → updateHeartbeat db p = db).
Proof.
  intros Hrow Hparse. split.
  - intros Hp.
    assert (updateHeartbeat db p
            = {| row := Some {| pid := pid o; heartbeat_at := Date_toISOString;
                                instance_id := instance_id o |} |}) as ->.
    { unfold updateHeartbeat. simpl. rewrite Hrow, Hp, Z.eqb_refl. by rewrite <- Hp. }
    split; [done|]. intros Halive Hrec Hfresh.
    rewrite (acquire_present _ _ _ {| pid := pid o; heartbeat_at := Date_toISOString;
                                      instance_id := instance_id o |}) by done.
    unfold pidRecycled in *. simpl. rewrite Hrec, Halive.
    unfold heartbeatAgeSeconds, toEpochMs. simpl. rewrite Hparse.
    apply Z.ltb_lt in Hfresh. by rewrite Hfresh.
  - intros Hne%Z.eqb_neq. unfold updateHeartbeat. simpl. by rewrite Hrow, Hne.
Qed.

Theorem heartbeat_never_creates db p :
  row db = None → updateHeartbeat db p = db ∧ releaseWatcherRole db p = db.
Proof.
  intros Hrow. unfold updateHeartbeat, releaseWatcherRole. simpl. by rewrite Hrow.
Qed.

(** X7. With the default liveness probe, a fresh row without PID recycling
    is taken over exactly when [process.kill(pid, 0)] throws an error whose
    code is ESRCH; any other outcome of the probe counts as alive. *)
Theorem default_probe_only_esrch db p options o :
  isAlive options = None →
  row db = Some o →
  pidRecycled options p o = false →
  (heartbeatAgeSeconds options o < staleOf options)%Z →
  ((acquireWatcherRole db p options).1 = owner
     ↔ process_kill (pid o) = Threw (Some "ESRCH"))
  ∧ ((acquireWatcherRole db p options).1 = reader
     ↔ process_kill (pid o) ≠ Threw (Some "ESRCH")).
Proof.
  intros Hdefault Hrow Hrec Hfresh%Z.ltb_lt.
  rewrite (acquire_present _ _ _ _ Hrow), Hrec, Hfresh, andb_true_r.
  unfold isAliveOf. rewrite Hdefault. simpl. unfold defaultIsAlive.
  destruct (process_kill (pid o)) as [|[code|]]; simpl;
    [split; split; done| |split; split; done].
  destruct (String.eqb_spec code "ESRCH") as [->|Hne]; simpl.
  - split; split; done.
  - split; split; try done; congruence.
Qed.

(** X8. The pid that has just become owner is answered [reader] when it
    acquires again while it is alive and its stamp is fresh: the same pid is
    never treated as recycled, whatever the identifiers. *)
Theorem reacquire_by_owner db p options options' db' t :
  acquireWatcherRole db p options = (owner, db') →
  Date_getTime Date_toISOString = Some t →
  isAliveOf options' p = true →
  ((nowOf options' - t) / 1000 < staleOf options')%Z →
  acquireWatcherRole db' p options' = (reader, db').
Proof.
  intros Hfirst Hparse Halive Hfresh.
  apply acquire_owner_store in Hfirst as ->.
  rewrite (acquire_present _ _ _ (stamped p (instanceId options))) by done.
  unfold pidRecycled. simpl. rewrite Z.eqb_refl, Halive. simpl.
  rewrite !andb_false_r.
  unfold heartbeatAgeSeconds, toEpochMs. simpl. rewrite Hparse.
  apply Z.ltb_lt in Hfresh. by rewrite Hfresh.
Qed.

End Protocol.

(** The runs below are in the runtime [rt0], whose clock and stamp read
    200 s; the run of X7 is in [rtKill]. *)
#[local] Existing Instance rt0.

Lemma acquire_dead_owner_witness :
  acquireWatcherRole (storeWith (ownerRow 7 "1970-01-01T00:03:20.000Z" (Some "a"))) 100
    (acquireOpts 200000 false 90 (Some "a"))
    = (owner, storeWith (ownerRow 100 "1970-01-01T00:03:20.000Z" (Some "a"))).
Proof.
  refine (acquire_dead_owner _ 100 (acquireOpts 200000 false 90 (Some "a")) _ _ _);
    reflexivity.
Defined.

Lemma acquire_without_recycling_witness :
  let db := storeWith (ownerRow 7 "1970-01-01T00:03:20.000Z" (Some "old-uuid")) in
  acquireWatcherRole db 100 (acquireOpts 200000 true 90 (Some "")) = (reader, db).
Proof.
  intros db.
  refine (acquire_without_recycling db 100 (acquireOpts 200000 true 90 (Some "")) _ _ _ _ _);
    [reflexivity|reflexivity|reflexivity|by left].
Defined.

Lemma acquire_alternates_witness :
  let db := storeWith (ownerRow 7 "1970-01-01T00:03:20.000Z" (Some "uuid-A")) in
  let options_p := acquireOpts 200000 true 90 (Some "uuid-A") in
  let options_q := acquireOpts 200000 true 90 (Some "uuid-B") in
  acquireWatcherRole db 100 options_q
    = (owner, storeWith (ownerRow 100 "1970-01-01T00:03:20.000Z" (Some "uuid-B")))
  ∧ acquireWatcherRole
      (storeWith (ownerRow 100 "1970-01-01T00:03:20.000Z" (Some "uuid-B"))) 7 options_p
      = (owner, storeWith (ownerRow 7 "1970-01-01T00:03:20.000Z" (Some "uuid-A"))).
Proof.
  intros db options_p options_q.
  refine (acquire_alternates db 7 100 options_p options_q _ "uuid-A" "uuid-B"
            _ _ _ _ _ _ _ _ _ _ _); first [reflexivity | discriminate].
Defined.

Lemma release_only_by_owner_witness :
  let db := storeWith (ownerRow 7 "1970-01-01T00:03:20.000Z" None) in
  releaseWatcherRole db 999 = db
  ∧ acquireWatcherRole (releaseWatcherRole db 7) 100 (acquireOpts 200000 true 90 None)
      = (owner, storeWith (ownerRow 100 "1970-01-01T00:03:20.000Z" None)).
Proof.
  intros db. split.
  - refine (proj2 (release_only_by_owner db 999 100 (acquireOpts 200000 true 90 None) _ _) _);
      [reflexivity|discriminate].
  - refine (proj2 (proj1 (release_only_by_owner db 7 100
                            (acquireOpts 200000 true 90 None) _ _) _));
      reflexivity.
Defined.

Lemma heartbeat_refreshes_owner_witness :
  let db := storeWith (ownerRow 7 "1970-01-01T00:01:40.000Z" None) in
  acquireWatcherRole db 100 (acquireOpts 200000 true 90 None)
    = (owner, storeWith (ownerRow 100 "1970-01-01T00:03:20.000Z" None))
  ∧ acquireWatcherRole (updateHeartbeat db 7) 100 (acquireOpts 200000 true 90 None)
      = (reader, updateHeartbeat db 7).
Proof.
  intros db. split; [reflexivity|].
  refine (proj2 (proj1 (heartbeat_refreshes_owner db 7 100
                          (acquireOpts 200000 true 90 None) _ 200000 _ _) _) _ _ _);
    reflexivity.
Defined.

Lemma default_probe_only_esrch_witness :
  let db := storeWith (ownerRow 7 "1970-01-01T00:03:20.000Z" None) in
  let options := {| now := Some 200000%Z; isAlive := None;
                    staleAfterSeconds := Some 90%Z; instanceId := None |} in
  (acquireWatcherRole (rt := rtKill (Threw (Some "ESRCH")))
     (H := fakeStore (rt := rtKill (Threw (Some "ESRCH")))) db 100 options).1 = owner.
Proof.
  intros db options.
  refine (proj2 (proj1 (default_probe_only_esrch (rt := rtKill (Threw (Some "ESRCH")))
                          db 100 options _ _ _ _ _)) _); reflexivity.
Defined.

Lemma reacquire_by_owner_witness :
  let db' := storeWith (ownerRow 100 "1970-01-01T00:03:20.000Z" (Some "uuid-A")) in
  acquireWatcherRole db' 100 (acquireOpts 205000 true 90 (Some "uuid-B")) = (reader, db').
Proof.
  intros db'.
  refine (reacquire_by_owner {| row := None |} 100 (acquireOpts 200000 true 90 (Some "uuid-A"))
            (acquireOpts 205000 true 90 (Some "uuid-B")) db' 200000 _ _ _ _);
    reflexivity.
Defined.

End OwnershipMore.


(** * The parse API: the cache and the accounting of a batch *)

Module ParseApiMore.
Import ParseApi Examples ParseApiFacts.

Section Cache.
Context {ParsedFile ParserOptions Cache : Type}.
Variable cache_set : string → ParsedFile → Cache → Cache.
Variable cache_get : string → Cache → option ParsedFile * Cache.
Implicit Types (ctx : @GildashContext ParsedFile ParserOptions Cache).
Implicit Types (options : option ParserOptions).

(** X9. A file that [parseSource] returns is found by [getParsedAst] right
    after, given a cache that returns what was last set for a key. *)
Theorem parseSource_then_getParsedAst ctx filePath sourceText options result :
  closed ctx = false →
  parseSourceFn ctx filePath sourceText options = Return (Ok result) →
  (∀ c, (cache_get filePath (cache_set filePath result c)).1 = Some result) →
  (parseSource cache_set ctx filePath sourceText options).1 = Return result
  ∧ (getParsedAst cache_get
       (parseSource cache_set ctx filePath sourceText options).2 filePath).1
      = Return (Some result).
Proof.
  intros Hopen Hparse Hcache. unfold parseSource. rewrite Hopen, Hparse. simpl.
  split; [done|]. unfold getParsedAst. simpl. rewrite Hopen.
  specialize (Hcache (parseCache ctx)).
  destruct (cache_get filePath (cache_set filePath result (parseCache ctx))) as [r c].
  simpl in *. by rewrite Hcache.
Qed.

(** X10. [parseSource] writes the cache only when it returns: whenever it
    throws (closed context, an error result, a throwing parser) the context
    comes back as it was, and what it returns is what the parser answered
    on an open context, stored under the path. *)
Theorem parseSource_outcome ctx filePath sourceText options :
  match (parseSource cache_set ctx filePath sourceText options).1 with
  | Throw _ => (parseSource cache_set ctx filePath sourceText options).2 = ctx
  | Return result =>
      closed ctx = false
      ∧ parseSourceFn ctx filePath sourceText options = Return (Ok result)
      ∧ (parseSource cache_set ctx filePath sourceText options).2
          = withCache ctx (cache_set filePath result (parseCache ctx))
  end.
Proof.
  unfold parseSource. destruct (closed ctx); [done|].
  by destruct (parseSourceFn ctx filePath sourceText options) as [[?|?]|].
Qed.

End Cache.

Section Accounting.
Context {ParsedFile ParserOptions Cache : Type}.
Implicit Types (ctx : @GildashContext ParsedFile ParserOptions Cache).
Implicit Types (options : option ParserOptions) (acc : @BatchParseResult ParsedFile).

Lemma foldl_settle_failure_names ctx options settled acc :
  (failures (foldl (settle ctx options) acc settled)).*1
    = (failures acc).*1 ++ filter (λ fp, parses ctx options fp = None) settled.
Proof.
  revert acc. induction settled as [|x settled IH]; intros acc; cbn [foldl].
  { by rewrite app_nil_r. }
  rewrite IH, filter_cons. destruct (parses ctx options x) as [rx|] eqn:Hx.
  - rewrite (settle_parsed _ _ _ _ _ Hx). cbn [failures]. by rewrite decide_False.
  - destruct (settle_failed _ _ acc _ Hx) as [e ->]. cbn [failures].
    rewrite decide_True by done. by rewrite fmap_app, <- app_assoc.
Qed.

Lemma size_list_to_set_le (l : list string) :
  (base.size (list_to_set (C := gset string) l) ≤ length l)%nat.
Proof.
  induction l as [|x l IH].
  { change (list_to_set (C := gset string) []) with (∅ : gset string).
    by rewrite size_empty. }
  rewrite list_to_set_cons, size_union_alt, size_singleton. cbn [length].
  assert (base.size (list_to_set (C := gset string) l ∖ {[x]})
          ≤ base.size (list_to_set (C := gset string) l))%nat
    by (apply subseteq_size; set_solver).
  lia.
Qed.

(** X11. The accounting of a batch on an open context: [failures] names, in
    the order the reads settled, exactly the entries that did not parse;
    [parsed] has an entry exactly for the listed paths that parse; and the
    two together never count more than the paths given. *)
Theorem batchParse_accounting ctx filePaths options settled :
  closed ctx = false →
  settled ≡ₚ filePaths →
  ∃ r, batchParse ctx filePaths options settled = Return r
    ∧ (failures r).*1 = filter (λ fp, parses ctx options fp = None) settled
    ∧ (∀ fp, is_Some (parsed r !! fp)
             ↔ fp ∈ filePaths ∧ is_Some (parses ctx options fp))
    ∧ (length (failures r) + base.size (parsed r) ≤ length filePaths)%nat.
Proof.
  intros Hopen Hperm. unfold batchParse. rewrite Hopen.
  eexists. split; [done|].
  set (r := foldl (settle ctx options) {| parsed := ∅; failures := [] |} settled).
  assert ((failures r).*1 = filter (λ fp, parses ctx options fp = None) settled)
    as Hnames by apply (foldl_settle_failure_names _ _ _ {| parsed := ∅; failures := [] |}).
  assert (∀ fp, is_Some (parsed r !! fp)
                ↔ fp ∈ settled ∧ is_Some (parses ctx options fp)) as Hdom.
  { intros fp. unfold r. rewrite foldl_settle_parsed. simpl. rewrite lookup_empty.
    destruct (parses ctx options fp); [case_decide|];
      rewrite <- ?not_eq_None_Some; naive_solver. }
  split_and!; [done| |].
  - intros fp. rewrite Hdom. by rewrite Hperm.
  - assert (dom (parsed r) ⊆
              list_to_set (filter (λ fp, ¬ parses ctx options fp = None) settled)) as Hsub.
    { intros fp [Hin Hsome]%elem_of_dom%Hdom.
      apply elem_of_list_to_set, list_elem_of_filter. split; [|done].
      by apply not_eq_None_Some. }
    apply subseteq_size in Hsub. rewrite size_dom in Hsub.
    pose proof (size_list_to_set_le
                  (filter (λ fp, ¬ parses ctx options fp = None) settled)).
    assert (length (failures r) = length ((failures r).*1)) as -> by by rewrite length_fmap.
    assert (length filePaths = length settled) as -> by by rewrite Hperm.
    pose proof (filter_app_complement (λ fp, parses ctx options fp = None) settled)
      as Hsplit%Permutation_length.
    rewrite length_app in Hsplit. rewrite Hnames. lia.
Qed.

End Accounting.

(** X9 run: the example context with a map for the cache. *)
Lemma parseSource_then_getParsedAst_witness :
  (getParsedAst cacheGet
     (parseSource cacheSet (ctx0 false) "/b.ts" "export {}" None).2 "/b.ts").1
    = Return (Some "export {}").
Proof.
  refine (proj2 (parseSource_then_getParsedAst cacheSet cacheGet (ctx0 false)
                   "/b.ts" "export {}" None "export {}" _ _ _)); [reflexivity..|].
  intros c. unfold cacheGet, cacheSet. simpl. apply lookup_insert_eq.
Defined.

(** X11 run: one file listed twice, one unreadable, one that does not
    parse. *)
Lemma batchParse_accounting_witness :
  ∃ r, batchParse (ctx0 false) ["/a.ts"; "/bad.ts"; "/a.ts"; "/err.ts"] None
         ["/err.ts"; "/a.ts"; "/bad.ts"; "/a.ts"] = Return r
    ∧ (failures r).*1 = ["/err.ts"; "/bad.ts"]
    ∧ (length (failures r) + base.size (parsed r) ≤ 4)%nat.
Proof.
  destruct (batchParse_accounting (ctx0 false) ["/a.ts"; "/bad.ts"; "/a.ts"; "/err.ts"]
              None ["/err.ts"; "/a.ts"; "/bad.ts"; "/a.ts"]) as (r & Hr & Hnames & _ & Hcount).
  - reflexivity.
  - etrans; [apply (Permutation_cons_append ["/a.ts"; "/bad.ts"; "/a.ts"] "/err.ts")|].
    done.
  - exists r. split_and!; [done|done|done].
Defined.

End ParseApiMore.


(** * Pattern search with paths *)

Module PatternSearchMore.
Import PatternSearch MoreExamples.

Lemma foldl_onBatch (batches : list (bool * list SgNode)) (matches : list PatternMatch) :
  foldl onBatch matches batches
    = matches ++ (batches ≫= λ b : bool * list SgNode, if b.1 then [] else toMatch <$> b.2).
Proof.
  revert matches. induction batches as [|[err nodes] batches IH]; intros matches;
    cbn [foldl]; csimpl.
  { by rewrite app_nil_r. }
  rewrite IH. unfold onBatch. simpl. destruct err; simpl; [done|].
  by rewrite <- app_assoc.
Qed.

(** X12. With paths, the engine is called exactly once, with the paths and
    the pattern as given, however the call ends; without paths it is not
    called. *)
Theorem patternSearch_calls (findInFiles : Engine) (opts : PatternSearchOptions) :
  (patternSearch findInFiles opts).2 =
    match filePaths opts with
    | [] => []
    | _ => [{| call_paths := filePaths opts; call_pattern := pattern opts |}]
    end.
Proof.
  unfold patternSearch. destruct (filePaths opts) as [|fp fps] eqn:Hpaths; [done|].
  simpl. by destruct (findInFiles _) as [batches [[]|reason]].
Qed.

(** X13. When the call resolves, the result holds one match per node of the
    batches delivered without an error, in the order delivered; a batch
    delivered with an error adds nothing and stops nothing. *)
Theorem patternSearch_collects (findInFiles : Engine) (opts : PatternSearchOptions)
    (batches : list (bool * list SgNode)) :
  filePaths opts ≠ [] →
  findInFiles {| call_paths := filePaths opts; call_pattern := pattern opts |}
    = (batches, Resolved ()) →
  (patternSearch findInFiles opts).1
    = Resolved (batches ≫= λ b : bool * list SgNode, if b.1 then [] else toMatch <$> b.2).
Proof.
  intros Hpaths Hcall. unfold patternSearch.
  destruct (filePaths opts) as [|fp fps] eqn:Heq; [done|]. simpl.
  rewrite Hcall. simpl. by rewrite foldl_onBatch.
Qed.

(** X14. Line numbers are 1-based: when the engine's 0-based lines are not
    negative and a node does not end before it starts, every match has
    [1 ≤ startLine ≤ endLine]. *)
Theorem patternSearch_lines (findInFiles : Engine) (opts : PatternSearchOptions)
    (matches : list PatternMatch) :
  (∀ call b node, b ∈ (findInFiles call).1 → node ∈ b.2 →
     (0 ≤ range_start_line node ≤ range_end_line node)%Z) →
  (patternSearch findInFiles opts).1 = Resolved matches →
  ∀ m, m ∈ matches → (1 ≤ startLine m ≤ endLine m)%Z.
Proof.
  intros Hlines. unfold patternSearch.
  destruct (length (filePaths opts) =? 0)%nat.
  { intros [= <-] m Hm. by apply elem_of_nil in Hm. }
  set (call := {| call_paths := filePaths opts; call_pattern := pattern opts |}).
  specialize (Hlines call). destruct (findInFiles call) as [batches [[]|reason]]; [|done].
  simpl in *. intros [= <-] m. rewrite foldl_onBatch. simpl.
  intros (b & Hm & Hb)%list_elem_of_bind.
  destruct b as [[] nodes]; simpl in Hm; [by apply elem_of_nil in Hm|].
  apply list_elem_of_fmap in Hm as (node & -> & Hnode).
  specialize (Hlines _ _ Hb Hnode). simpl. lia.
Qed.

Lemma patternSearch_collects_witness :
  (patternSearch twoBatches {| pattern := "console.log($$$)"; filePaths := ["/src"] |}).1
    = Resolved [ {| filePath := "/a.ts"; startLine := 1; endLine := 3;
                    matchedText := "console.log(1)" |};
                 {| filePath := "/c.ts"; startLine := 5; endLine := 5;
                    matchedText := "console.log(3)" |} ].
Proof.
  refine (patternSearch_collects twoBatches
            {| pattern := "console.log($$$)"; filePaths := ["/src"] |}
            (twoBatches {| call_paths := ["/src"]; call_pattern := "" |}).1 _ _);
    [discriminate|reflexivity].
Defined.

Lemma patternSearch_lines_witness :
  let m := {| filePath := "/c.ts"; startLine := 5; endLine := 5;
              matchedText := "console.log(3)" |} in
  (1 ≤ startLine m ≤ endLine m)%Z.
Proof.
  intros m.
  refine (patternSearch_lines twoBatches
            {| pattern := "console.log($$$)"; filePaths := ["/src"] |}
            [ {| filePath := "/a.ts"; startLine := 1; endLine := 3;
                 matchedText := "console.log(1)" |}; m ] _ _ m _);
    [|reflexivity|by right; left].
  intros call b node Hb Hnode. simpl in Hb.
  repeat (apply elem_of_cons in Hb as [->|Hb]);
    [..|by apply elem_of_nil in Hb];
    apply list_elem_of_singleton in Hnode as ->; simpl; lia.
Defined.

End PatternSearchMore.


(** * The file repository: rows by key *)

Module FileRepositoryFacts.
Import FileRepository MoreExamples.

Implicit Types (db : Files) (r : FileRecord) (p fp : string).

Lemma toRecord_inj key c c' : toRecord key c = toRecord key c' → c = c'.
Proof.
  destruct c as [m s h u l], c' as [m' s' h' u' l']. unfold toRecord. simpl.
  intros [= -> -> -> -> Hl]. f_equal. by destruct l, l'; simplify_eq.
Qed.

Lemma getFile_Some db p fp r :
  getFile db p fp = Some r ↔ ∃ c, db !! (p, fp) = Some c ∧ r = toRecord (p, fp) c.
Proof. unfold getFile. rewrite fmap_Some. naive_solver. Qed.

(** X15. What [upsertFile] stores is what [getFile] returns for the
    record's key: the record itself, with an omitted [lineCount] read back as
    null; every other key reads as before. *)
Theorem getFile_upsertFile db r p fp :
  getFile (upsertFile db r) (project r) (filePath r)
    = Some {| project := project r; filePath := filePath r; mtimeMs := mtimeMs r;
              size := size r; contentHash := contentHash r; updatedAt := updatedAt r;
              lineCount := match lineCount r with Undefined => Null | l => l end |}
  ∧ (lineCount r ≠ Undefined →
     getFile (upsertFile db r) (project r) (filePath r) = Some r)
  ∧ ((p, fp) ≠ (project r, filePath r) →
     getFile (upsertFile db r) p fp = getFile db p fp).
Proof.
  unfold getFile, upsertFile. split_and!.
  - rewrite lookup_insert_eq. simpl. unfold toRecord, columnsOf. simpl.
    by destruct (lineCount r).
  - intros Hl. rewrite lookup_insert_eq. simpl. unfold toRecord, columnsOf. simpl.
    destruct r as [? ? ? ? ? ? l]. simpl in *. by destruct l.
  - intros Hne. by rewrite lookup_insert_ne.
Qed.

(** X16. [deleteFile] removes the row of its key and no other; deleting a
    key without a row changes nothing, and a delete after an upsert of the
    same key undoes it. *)
Theorem getFile_deleteFile db r p fp p' fp' :
  getFile (deleteFile db p fp) p fp = None
  ∧ ((p', fp') ≠ (p, fp) → getFile (deleteFile db p fp) p' fp' = getFile db p' fp')
  ∧ (getFile db p fp = None → deleteFile db p fp = db)
  ∧ deleteFile (upsertFile db r) (project r) (filePath r)
      = deleteFile db (project r) (filePath r).
Proof.
  unfold getFile, deleteFile, upsertFile. split_and!.
  - by rewrite lookup_delete_eq.
  - intros Hne. by rewrite lookup_delete_ne.
  - intros Hnone. apply delete_id. by destruct (db !! (p, fp)).
  - apply delete_insert_eq.
Qed.

(** The rows of one project as the table lists them. *)
Lemma getAllFiles_rows db p :
  getAllFiles db p
    = (λ row, toRecord row.1 row.2) <$> filter (λ row, row.1.1 = p) (map_to_list db).
Proof. done. Qed.

Lemma elem_of_getAllFiles db p r :
  r ∈ getAllFiles db p ↔ project r = p ∧ getFile db p (filePath r) = Some r.
Proof.
  rewrite getAllFiles_rows, list_elem_of_fmap. split.
  - intros ([[p' fp] c] & -> & [Hp Hin%elem_of_map_to_list]%list_elem_of_filter).
    simpl in *. subst p'. split; [done|]. apply getFile_Some. by exists c.
  - intros [Hp (c & Hc & Hr)%getFile_Some].
    exists ((p, filePath r), c). split; [done|].
    apply list_elem_of_filter. split; [done|]. by apply elem_of_map_to_list.
Qed.

Lemma NoDup_getAllFiles_paths db p : NoDup (filePath <$> getAllFiles db p).
Proof.
  rewrite getAllFiles_rows, <- list_fmap_compose.
  apply NoDup_fmap_2_strong; [|apply NoDup_filter, NoDup_map_to_list].
  intros [[p1 fp1] c1] [[p2 fp2] c2]
    [Hp1 Hin1%elem_of_map_to_list]%list_elem_of_filter
    [Hp2 Hin2%elem_of_map_to_list]%list_elem_of_filter Heq.
  simpl in *. subst. congruence.
Qed.

(** X17. [getAllFiles] lists exactly the rows of the project, each as
    [getFile] returns it, and no path twice. *)
Theorem getAllFiles_spec db p :
  (∀ r, r ∈ getAllFiles db p ↔ project r = p ∧ getFile db p (filePath r) = Some r)
  ∧ NoDup (filePath <$> getAllFiles db p).
Proof. split; [apply elem_of_getAllFiles|apply NoDup_getAllFiles_paths]. Qed.

Lemma foldl_set_lookup (l : list FileRecord) (m : gmap string FileRecord) fp :
  NoDup (filePath <$> l) →
  foldl (λ m r, <[filePath r := r]> m) m l !! fp
    = match filter (λ r, filePath r = fp) l with
      | [] => m !! fp
      | r :: _ => Some r
      end.
Proof.
  revert m. induction l as [|x l IH]; intros m Hnd; cbn [foldl]; [done|].
  rewrite fmap_cons in Hnd. apply NoDup_cons in Hnd as [Hx Hnd].
  rewrite IH by done. rewrite filter_cons. case_decide as Hfp.
  - assert (filter (λ r, filePath r = fp) l = []) as ->.
    { destruct (filter (λ r, filePath r = fp) l) as [|r rs] eqn:Hf; [done|].
      assert (r ∈ filter (λ r, filePath r = fp) l) as [Hpath Hr]%list_elem_of_filter
        by (rewrite Hf; by left).
      destruct Hx. apply list_elem_of_fmap. exists r. split; [congruence|done]. }
    by rewrite <- Hfp, lookup_insert_eq.
  - destruct (filter (λ r, filePath r = fp) l); [|done].
    by rewrite lookup_insert_ne.
Qed.

Lemma lookup_getFilesMap db p fp : getFilesMap db p !! fp = getFile db p fp.
Proof.
  unfold getFilesMap. rewrite foldl_set_lookup by apply NoDup_getAllFiles_paths.
  rewrite lookup_empty.
  destruct (filter (λ r, filePath r = fp) (getAllFiles db p)) as [|r rs] eqn:Hf.
  - destruct (getFile db p fp) as [r|] eqn:Hget; [|done].
    assert (r ∈ filter (λ r, filePath r = fp) (getAllFiles db p)) as Hin.
    { pose proof Hget as (c & _ & ->)%getFile_Some.
      apply list_elem_of_filter. split; [done|]. by apply elem_of_getAllFiles. }
    rewrite Hf in Hin. by apply elem_of_nil in Hin.
  - assert (r ∈ filter (λ r, filePath r = fp) (getAllFiles db p)) as
      [<- [_ Hget]%elem_of_getAllFiles]%list_elem_of_filter by (rewrite Hf; by left).
    done.
Qed.

(** X18. The map [getFilesMap] builds answers for a path what [getFile]
    answers for the project and the path, so it has an entry exactly for the
    project's rows. *)
Theorem getFilesMap_spec db p :
  (∀ fp, getFilesMap db p !! fp = getFile db p fp)
  ∧ (∀ fp r, getFilesMap db p !! fp = Some r → project r = p ∧ filePath r = fp).
Proof.
  split; [apply lookup_getFilesMap|].
  intros fp r. rewrite lookup_getFilesMap. by intros (c & _ & ->)%getFile_Some.
Qed.

(** X19. An upsert never duplicates a row: on a key that has a row the
    project lists as many rows as before, on a new key one more; and of two
    upserts on one key the later one stands. *)
Theorem upsertFile_no_duplicate db r r' :
  length (getAllFiles (upsertFile db r) (project r))
    = match getFile db (project r) (filePath r) with
      | Some _ => length (getAllFiles db (project r))
      | None => S (length (getAllFiles db (project r)))
      end
  ∧ (project r' = project r → filePath r' = filePath r →
     upsertFile (upsertFile db r') r = upsertFile db r).
Proof.
  split.
  - rewrite !getAllFiles_rows, !length_fmap. unfold getFile, upsertFile.
    destruct (db !! (project r, filePath r)) as [c|] eqn:Hc; simpl.
    + rewrite <- insert_delete_eq.
      rewrite map_to_list_insert by apply lookup_delete_eq.
      rewrite <- (map_to_list_delete db _ _ Hc).
      rewrite !filter_cons. simpl. by rewrite !decide_True.
    + rewrite map_to_list_insert by done.
      rewrite filter_cons. simpl. by rewrite decide_True.
  - intros Hp Hfp. unfold upsertFile. rewrite Hp, Hfp. apply insert_insert_eq.
Qed.

(** X15 run. *)
Lemma getFile_upsertFile_witness :
  getFile (upsertFile ∅ (fileB "bbbb")) "app" "src/b.ts" = Some (fileB "bbbb")
  ∧ getFile (upsertFile twoFiles (fileB "cccc")) "app" "src/a.ts"
      = getFile twoFiles "app" "src/a.ts".
Proof.
  split.
  - refine (proj1 (proj2 (getFile_upsertFile ∅ (fileB "bbbb") "" "")) _). discriminate.
  - refine (proj2 (proj2 (getFile_upsertFile twoFiles (fileB "cccc") "app" "src/a.ts")) _).
    discriminate.
Defined.

(** X16 run. *)
Lemma getFile_deleteFile_witness :
  getFile (deleteFile twoFiles "app" "src/a.ts") "app" "src/b.ts"
    = getFile twoFiles "app" "src/b.ts"
  ∧ deleteFile twoFiles "lib" "src/a.ts" = twoFiles.
Proof.
  split.
  - refine (proj1 (proj2 (getFile_deleteFile twoFiles fileA "app" "src/a.ts"
                            "app" "src/b.ts")) _). discriminate.
  - refine (proj1 (proj2 (proj2 (getFile_deleteFile twoFiles fileA "lib" "src/a.ts"
                                   "" ""))) _). reflexivity.
Defined.

(** X17 run. *)
Lemma getAllFiles_spec_witness : fileB "bbbb" ∈ getAllFiles twoFiles "app".
Proof.
  refine (proj2 (proj1 (getAllFiles_spec twoFiles "app") (fileB "bbbb")) _).
  split; reflexivity.
Defined.

(** X18 run. *)
Lemma getFilesMap_spec_witness :
  project (fileB "bbbb") = "app" ∧ filePath (fileB "bbbb") = "src/b.ts".
Proof.
  refine (proj2 (getFilesMap_spec twoFiles "app") "src/b.ts" (fileB "bbbb") _).
  rewrite (proj1 (getFilesMap_spec twoFiles "app")). reflexivity.
Defined.

(** X19 run. *)
Lemma upsertFile_no_duplicate_witness :
  upsertFile (upsertFile twoFiles (fileB "cccc")) (fileB "dddd")
    = upsertFile twoFiles (fileB "dddd")
  ∧ length (getAllFiles (upsertFile twoFiles (fileB "dddd")) "app") = 2%nat.
Proof.
  split.
  - refine (proj2 (upsertFile_no_duplicate twoFiles (fileB "dddd") (fileB "cccc")) _ _);
      reflexivity.
  - etrans; [exact (proj1 (upsertFile_no_duplicate twoFiles (fileB "dddd") fileA))|].
    by vm_compute.
Defined.

End FileRepositoryFacts.


(** * The known-file filter: only destinations that have a file row *)

Module RelationIndexerFacts.
Import FileRepository RelationIndexer RelationIndexerTerms MoreExamples FileRepositoryFacts.

(** Between names without a colon, a key determines the project and the
    path: the project ends at the first colon of the key. *)
Lemma knownKey_inj (p1 f1 p2 f2 : string) :
  colonFree p1 = true → colonFree p2 = true →
  knownKey p1 f1 = knownKey p2 f2 → p1 = p2 ∧ f1 = f2.
Proof.
  assert (∀ s, String.append "" s = s) as Hnil by done.
  assert (∀ a p s, String.append (String a p) s = String a (String.append p s))
    as Hcons by done.
  unfold knownKey. revert p2.
  induction p1 as [|a p1 IH]; intros [|a' p2]; cbn [colonFree];
    rewrite ?Hcons, ?Hnil.
  - by intros _ _ [= ->].
  - intros _ [Ha _]%andb_prop [= <- _]. done.
  - intros [Ha _]%andb_prop _ [= -> _]. done.
  - intros [_ H1]%andb_prop [_ H2]%andb_prop [= -> Hrest].
    by destruct (IH p2 H1 H2 Hrest) as [-> ->].
Qed.

Section WithCollaborators.
Context {TsconfigPaths ProjectBoundary : Type}.
Variable boundaryProject : ProjectBoundary → string.
Variable resolveImport : string → string → option TsconfigPaths → list string.
Variable resolveBareSpecifier : string → string → list string.
Variable toRelativePath : string → string → string.
Variable resolveFileProject : string → list ProjectBoundary → string.
Implicit Types (db : Files) (boundaries : list ProjectBoundary) (known : gset string).

Lemma elem_of_add_keys (p : string) (entries : list (string * FileRecord)) known s :
  s ∈ foldl (λ known entry, {[ knownKey p entry.1 ]} ∪ known) known entries
    ↔ s ∈ known ∨ ∃ entry, entry ∈ entries ∧ s = knownKey p entry.1.
Proof.
  revert known. induction entries as [|e entries IH]; intros known; cbn [foldl].
  - split; [by left|]. intros [?|(? & ?%elem_of_nil & _)]; done.
  - rewrite IH, elem_of_union, elem_of_singleton. split.
    + intros [[->|?]|(e' & ? & ->)]; [right; exists e|by left|right; exists e'];
        (split; [|done]); by constructor.
    + intros [?|(e' & [->|?]%elem_of_cons & ->)];
        [by left; right|by left; left|right; by exists e'].
Qed.

Lemma elem_of_buildKnownFiles db boundaries s :
  s ∈ buildKnownFiles boundaryProject db boundaries
    ↔ ∃ b fp, b ∈ boundaries
              ∧ is_Some (getFile db (boundaryProject b) fp)
              ∧ s = knownKey (boundaryProject b) fp.
Proof.
  unfold buildKnownFiles.
  assert (∀ known,
    s ∈ foldl (λ known boundary,
                 foldl (λ known entry, {[ knownKey (boundaryProject boundary) entry.1 ]} ∪ known)
                       known (map_to_list (getFilesMap db (boundaryProject boundary))))
              known boundaries
    ↔ s ∈ known ∨ ∃ b fp, b ∈ boundaries
                          ∧ is_Some (getFile db (boundaryProject b) fp)
                          ∧ s = knownKey (boundaryProject b) fp) as Hgen.
  { induction boundaries as [|b bs IH]; intros known; cbn [foldl].
    - split; [by left|]. intros [?|(? & ? & ?%elem_of_nil & _)]; done.
    - rewrite IH, elem_of_add_keys. split.
      + intros [[?|([fp r] & Hin%elem_of_map_to_list & ->)]|(b' & fp & ? & ? & ->)].
        * by left.
        * right. exists b, fp. rewrite lookup_getFilesMap in Hin.
          split_and!; [by left|by rewrite Hin|done].
        * right. exists b', fp. split_and!; [by right|done..].
      + intros [?|(b' & fp & [->|?]%elem_of_cons & [r Hr] & ->)].
        * by left; left.
        * left; right. exists (fp, r). split; [|done].
          apply elem_of_map_to_list. by rewrite lookup_getFilesMap.
        * right. exists b', fp. by split_and!. }
  rewrite Hgen. split; [intros [?%elem_of_empty|?]|intros ?]; [done|done|by right].
Qed.

(** X20. A key is in [knownFiles] exactly when it is the key of a file row
    of one of the projects of the boundaries. *)
Theorem buildKnownFiles_spec db boundaries s :
  s ∈ buildKnownFiles boundaryProject db boundaries
    ↔ ∃ b fp, b ∈ boundaries
              ∧ is_Some (getFile db (boundaryProject b) fp)
              ∧ s = knownKey (boundaryProject b) fp.
Proof. apply elem_of_buildKnownFiles. Qed.

(** The key a candidate is looked up under. *)
Local Abbreviation keyOf projectRoot project scope c :=
  (knownKey (lookupProject resolveFileProject project scope (toRelativePath projectRoot c))
            (toRelativePath projectRoot c)).

Lemma firstKnown_spec projectRoot project (scope : option (list ProjectBoundary))
    known (candidates : list string) :
  match firstKnown toRelativePath resolveFileProject projectRoot project scope known
          candidates with
  | [] => ∀ c, c ∈ candidates → keyOf projectRoot project scope c ∉ known
  | [c] => ∃ earlier later,
             candidates = earlier ++ c :: later
             ∧ keyOf projectRoot project scope c ∈ known
             ∧ ∀ c', c' ∈ earlier → keyOf projectRoot project scope c' ∉ known
  | _ => False
  end.
Proof.
  induction candidates as [|c cs IH]; simpl.
  - by intros c ?%elem_of_nil.
  - case_decide as Hknown.
    + exists [], cs. split_and!; [done|done|]. by intros c' ?%elem_of_nil.
    + destruct (firstKnown _ _ _ _ _ _ cs) as [|c1 [|c2 rest]]; [| |done].
      * intros c' [->|?]%elem_of_cons; [done|by apply IH].
      * destruct IH as (earlier & later & -> & ? & Hearlier).
        exists (c :: earlier), later. split_and!; [done|done|].
        intros c' [->|?]%elem_of_cons; [done|by apply Hearlier].
Qed.

(** X21. The filtering resolver answers with at most one path.  Its
    candidates are those of the plain resolution, and those of the
    bare-specifier resolution only when the plain resolution gives none; the
    answer is the first candidate, in the order given, whose key is in
    [knownFiles], and it is empty exactly when no candidate's key is. *)
Theorem customResolver_first_known projectRoot project
    (scope : option (list ProjectBoundary)) known currentFile importPath paths :
  let plain := resolveImport currentFile importPath paths in
  let candidates :=
    match plain with
    | [] => resolveBareSpecifier projectRoot importPath
    | _ :: _ => plain
    end in
  match customResolver resolveImport resolveBareSpecifier toRelativePath resolveFileProject
          projectRoot project scope known currentFile importPath paths with
  | [] => ∀ c, c ∈ candidates → keyOf projectRoot project scope c ∉ known
  | [c] => ∃ earlier later,
             candidates = earlier ++ c :: later
             ∧ keyOf projectRoot project scope c ∈ known
             ∧ ∀ c', c' ∈ earlier → keyOf projectRoot project scope c' ∉ known
  | _ => False
  end.
Proof.
  intros plain candidates. unfold customResolver.
  assert (candidatesFor resolveImport resolveBareSpecifier projectRoot
            currentFile importPath paths = candidates) as ->.
  { unfold candidatesFor, candidates, plain.
    by destruct (resolveImport currentFile importPath paths). }
  apply firstKnown_spec.
Qed.

(** X22. With the set built from the file rows, every path the filtering
    resolver returns is looked up under a key that is the key of a file row
    of one of the projects of the boundaries.  When no project name involved
    has a colon in it, keys determine project and path, so the project the
    path is looked up under is one of the boundaries' and the repository
    holds a row for the path under it. *)
Theorem customResolver_has_file_row db boundaries projectRoot project
    (scope : option (list ProjectBoundary)) currentFile importPath paths c :
  c ∈ customResolver resolveImport resolveBareSpecifier toRelativePath resolveFileProject
        projectRoot project scope (buildKnownFiles boundaryProject db boundaries)
        currentFile importPath paths →
  let rel := toRelativePath projectRoot c in
  let p := lookupProject resolveFileProject project scope rel in
  (∃ b fp, b ∈ boundaries
           ∧ is_Some (getFile db (boundaryProject b) fp)
           ∧ knownKey p rel = knownKey (boundaryProject b) fp)
  ∧ (colonFree p = true →
     (∀ b, b ∈ boundaries → colonFree (boundaryProject b) = true) →
     (∃ b, b ∈ boundaries ∧ boundaryProject b = p) ∧ is_Some (getFile db p rel)).
Proof.
  unfold customResolver. intros Hc.
  pose proof (firstKnown_spec projectRoot project scope
                (buildKnownFiles boundaryProject db boundaries)
                (candidatesFor resolveImport resolveBareSpecifier projectRoot
                   currentFile importPath paths)) as Hspec.
  destruct (firstKnown _ _ _ _ _ _ _) as [|c1 [|c2 rest]]; [| |done].
  - by apply elem_of_nil in Hc.
  - apply list_elem_of_singleton in Hc as ->.
    destruct Hspec as (_ & _ & _ & Hknown & _).
    apply elem_of_buildKnownFiles in Hknown as (b & fp & Hb & Hrow & Hkey).
    split; [by exists b, fp|].
    intros Hp Hboundaries.
    apply knownKey_inj in Hkey as [Hproject Hpath]; [|done|by apply Hboundaries].
    split; [by exists b|]. by rewrite Hproject, Hpath.
Qed.

End WithCollaborators.

(** X22 run: "./b" from a file of "app"; the candidate ".d.ts" has no row,
    the candidate ".ts" has one. *)
Lemma customResolver_has_file_row_witness :
  customResolver offerB (λ _ _, []) dropRoot (λ _ _, "app")
    "/repo/" "app" (Some [tt]) (buildKnownFiles (λ _, "app") twoFiles [tt])
    "/repo/src/a.ts" "./b" None = ["/repo/src/b.ts"]
  ∧ is_Some (getFile twoFiles "app" "src/b.ts").
Proof.
  split; [by vm_compute|].
  refine (proj2 (proj2 (customResolver_has_file_row (λ _ : unit, "app") offerB (λ _ _, [])
                          dropRoot (λ _ _, "app") twoFiles [tt] "/repo/" "app" (Some [tt])
                          "/repo/src/a.ts" "./b" None "/repo/src/b.ts" _) _ _)).
  - vm_compute. by left.
  - reflexivity.
  - intros b _. reflexivity.
Defined.

(** The bare-specifier candidates are tried when the plain resolution is
    empty, and not when it offers candidates, known or not. *)
Example bare_specifier_fallback :
  customResolver (λ _ _ (_ : option unit), []) offerPackage dropRoot
    (λ _ (_ : list unit), "app") "/repo/" "app" None
    {[ knownKey "app" "node_modules/pkg/index.ts" ]} "/repo/src/a.ts" "pkg" None
    = ["/repo/node_modules/pkg/index.ts"]
  ∧ customResolver offerB offerPackage dropRoot
      (λ _ (_ : list unit), "app") "/repo/" "app" None
      {[ knownKey "app" "node_modules/pkg/index.ts" ]} "/repo/src/a.ts" "./b" None
    = [].
Proof. by vm_compute. Qed.

(** Keys collide when a project name has colons in it: the file "c.ts" of
    the project "app::b" makes the path "b::c.ts" of the project "app" pass
    the filter, although no project holds a row for it. *)
Example knownKey_collision :
  let boundaries := ["app"; "app::b"] in
  customResolver offerColon (λ _ _, []) dropRoot (λ _ (_ : list string), "app")
    "/repo/" "app" None (buildKnownFiles id colonFiles boundaries)
    "/repo/src/a.ts" "./x" None = ["/repo/b::c.ts"]
  ∧ knownKey "app" "b::c.ts" = knownKey "app::b" "c.ts"
  ∧ getFile colonFiles "app" "b::c.ts" = None
  ∧ getFile colonFiles "app::b" "b::c.ts" = None.
Proof. by vm_compute. Qed.

End RelationIndexerFacts.


(** * The dependency graph under its property tests *)

Module GraphPropertyFacts.
Import DependencyGraph GraphPropertySpec GraphEdgeFacts GraphReachFacts.

Implicit Types (g : Graph) (edges : list (string * string)) (f s d x y a b c : string).

Lemma hasEdge_buildGraphFromEdges edges s d :
  hasEdge (buildGraphFromEdges edges) s d ↔ (s, d) ∈ edges.
Proof.
  unfold buildGraphFromEdges. rewrite hasEdge_build.
  unfold relationEdges, loadRelations, trackedTypes. csimpl.
  rewrite !fmap_app, !elem_of_app, fmap_nil, elem_of_nil, <- !list_fmap_compose.
  assert (((λ r, (srcFilePath r, dstFilePath r)) ∘ (λ e, makeRelation e.1 e.2)) <$> edges
          = edges) as ->.
  { rewrite <- (list_fmap_id edges) at 2. apply list_fmap_ext. by intros _ [??] _. }
  tauto.
Qed.

Lemma hasReverseEdge_buildGraphFromEdges edges s d :
  hasReverseEdge (buildGraphFromEdges edges) s d ↔ (s, d) ∈ edges.
Proof.
  rewrite <- hasEdge_buildGraphFromEdges. unfold buildGraphFromEdges.
  by rewrite hasEdge_build, hasReverseEdge_build.
Qed.

Lemma elem_of_addOnce (seen : list string) x y :
  y ∈ addOnce seen x ↔ y ∈ seen ∨ y = x.
Proof.
  unfold addOnce. case_decide.
  - split; [by left|]. by intros [?| ->].
  - rewrite elem_of_app, list_elem_of_singleton. tauto.
Qed.

Lemma elem_of_changedFiles edges x :
  x ∈ changedFiles edges ↔ ∃ e, e ∈ edges ∧ (x = e.1 ∨ x = e.2).
Proof.
  unfold changedFiles.
  assert (∀ seen, x ∈ foldl (λ seen e, addOnce (addOnce seen e.1) e.2) seen edges
                  ↔ x ∈ seen ∨ ∃ e, e ∈ edges ∧ (x = e.1 ∨ x = e.2)) as Hgen.
  { induction edges as [|e edges IH]; intros seen; cbn [foldl].
    - split; [by left|]. intros [?|(? & ?%elem_of_nil & _)]; done.
    - rewrite IH, !elem_of_addOnce. split.
      + intros [[[?|?]|?]|(e' & ? & ?)];
          [by left|right; exists e|right; exists e|right; exists e'];
          (split; [by constructor|tauto]).
      + intros [?|(e' & [->|?]%elem_of_cons & ?)];
          [tauto|tauto|right; by exists e']. }
  rewrite Hgen. split; [intros [?%elem_of_nil|?]|intros ?]; [done|done|by right].
Qed.

(** X23. The patch test: after [patchFiles] with every file of the edges as
    changed, none deleted and each file's own edges as its relations, the
    adjacency list is the one of the fresh build, and so is the set of
    reverse edges. *)
Theorem patch_all_files_identical edges :
  let g := buildGraphFromEdges edges in
  let patched := patchFiles (changedFiles edges) [] (relationsForFile edges) g in
  getAdjacencyList patched = getAdjacencyList g
  ∧ ∀ s d, hasReverseEdge patched s d ↔ hasReverseEdge g s d.
Proof.
  intros g patched.
  assert (∀ s d,
    ((∃ f, f ∈ changedFiles edges ∧ (s, d) ∈ relationsForFile edges f)
       ∨ ((s ∉ changedFiles edges) ∧ (s ∉ @nil string) ∧ (s, d) ∈ edges))
    ↔ (s, d) ∈ edges) as Hiff.
  { intros s d. unfold relationsForFile. split.
    - intros [(f & _ & [_ ?]%list_elem_of_filter)|(_ & _ & ?)]; done.
    - intros Hin. left. exists s. split.
      + apply elem_of_changedFiles. exists (s, d). split; [done|by left].
      + by apply list_elem_of_filter. }
  split.
  - apply adjacencyList_ext.
    + apply noEmptyEntry_patchFiles, noEmptyEntry_build.
    + apply noEmptyEntry_build.
    + intros s d. unfold patched.
      rewrite (holds_patchFiles hasEdge hasEdge_addEdge hasEdge_removeOutgoing).
      unfold g. by rewrite !hasEdge_buildGraphFromEdges.
  - intros s d. unfold patched.
    rewrite (holds_patchFiles hasReverseEdge hasReverseEdge_addEdge
               hasReverseEdge_removeOutgoing).
    unfold g. by rewrite !hasReverseEdge_buildGraphFromEdges.
Qed.

Lemma elem_of_getTransitiveDependencies g f x :
  x ∈ getTransitiveDependencies g f ↔ x ≠ f ∧ ∃ l, walk g f l x.
Proof.
  unfold getTransitiveDependencies.
  rewrite elem_of_elements, elem_of_difference, elem_of_singleton, elem_of_reachable.
  tauto.
Qed.

(** X24. The chain test: with edges a -> b and b -> c among any others, c
    is a transitive dependency of a unless c is a itself; a file is never
    listed among its own transitive dependencies, cycle or not. *)
Theorem transitive_chain edges a b c :
  (a, b) ∈ edges → (b, c) ∈ edges →
  (c ≠ a → c ∈ getTransitiveDependencies (buildGraphFromEdges edges) a)
  ∧ a ∉ getTransitiveDependencies (buildGraphFromEdges edges) a.
Proof.
  intros Hab Hbc. split.
  - intros Hne. apply elem_of_getTransitiveDependencies. split; [done|].
    exists [b; c]. repeat constructor; by apply hasEdge_buildGraphFromEdges.
  - by intros [? _]%elem_of_getTransitiveDependencies.
Qed.

(** Walks of the graph with its maps exchanged are the walks of the graph
    read backwards, when the reverse map mirrors the forward map. *)
Lemma walk_reversed g :
  (∀ s d, hasReverseEdge g s d ↔ hasEdge g s d) →
  ∀ x y, (∃ l, walk (reversed g) x l y) ↔ (∃ l, walk g y l x).
Proof.
  intros Hmirror.
  assert (∀ s d, hasEdge (reversed g) d s ↔ hasEdge g s d) as Hflip.
  { intros s d. rewrite <- Hmirror. done. }
  intros x y. split.
  - intros (l & Hwalk). induction Hwalk as [f|f w l t Hedge _ (l' & IH)].
    + exists []. constructor.
    + exists (l' ++ [f]). eapply walk_app; [done|]. by apply walk_step, Hflip.
  - intros (l & Hwalk). induction Hwalk as [f|f w l t Hedge _ (l' & IH)].
    + exists []. constructor.
    + exists (l' ++ [f]). eapply walk_app; [done|]. by apply walk_step, Hflip.
Qed.

Lemma elem_of_getAffectedByChange g (changed : list string) x :
  x ∈ getAffectedByChange g changed
    ↔ x ∈ changed ∨ ∃ c, c ∈ changed ∧ x ∈ getTransitiveDependents g c.
Proof.
  unfold getAffectedByChange.
  rewrite elem_of_elements, elem_of_union, elem_of_list_to_set, elem_of_union_list.
  split.
  - intros [?|(X & (c & -> & ?)%list_elem_of_fmap & ?%elem_of_list_to_set)];
      [by left|right; by exists c].
  - intros [?|(c & ? & ?)]; [by left|right].
    exists (list_to_set (getTransitiveDependents g c)).
    split; [|by apply elem_of_list_to_set].
    apply list_elem_of_fmap. by exists c.
Qed.

(** X25. The impact set of a built graph: a file is affected by a change
    exactly when it is one of the changed files or reaches one of them along
    forward edges; in particular the set contains the transitive dependents
    of every changed file. *)
Theorem affected_by_change (o : Options) (changed : list string) x :
  (x ∈ getAffectedByChange (build o) changed
     ↔ x ∈ changed ∨ ∃ c l, c ∈ changed ∧ walk (build o) x l c)
  ∧ (∀ c, c ∈ changed → x ∈ getTransitiveDependents (build o) c →
          x ∈ getAffectedByChange (build o) changed).
Proof.
  assert (∀ c, x ∈ getTransitiveDependents (build o) c
               ↔ x ≠ c ∧ ∃ l, walk (build o) x l c) as Hdependents.
  { intros c. unfold getTransitiveDependents.
    rewrite elem_of_elements, elem_of_difference, elem_of_singleton, elem_of_reachable.
    rewrite (walk_reversed (build o)); [tauto|].
    intros s d. by rewrite hasEdge_build, hasReverseEdge_build. }
  split.
  - rewrite elem_of_getAffectedByChange. split.
    + intros [?|(c & ? & [_ (l & ?)]%Hdependents)]; [by left|right; by exists c, l].
    + intros [?|(c & l & Hc & Hwalk)]; [by left|].
      destruct (decide (x = c)) as [->|Hne]; [by left|].
      right. exists c. split; [done|]. apply Hdependents. split; [done|by exists l].
  - intros c Hc Hx. apply elem_of_getAffectedByChange. right. by exists c.
Qed.

(** X23 run on the cycle a -> b -> c -> a with d -> a. *)
Lemma patch_all_files_identical_witness :
  let edges := [("/a.ts", "/b.ts"); ("/b.ts", "/c.ts"); ("/c.ts", "/a.ts"); ("/d.ts", "/a.ts")] in
  getAdjacencyList (patchFiles (changedFiles edges) [] (relationsForFile edges)
                      (buildGraphFromEdges edges))
    = getAdjacencyList (buildGraphFromEdges edges).
Proof. intros edges. exact (proj1 (patch_all_files_identical edges)). Defined.

(** X24 run. *)
Lemma transitive_chain_witness :
  "/c.ts" ∈ getTransitiveDependencies
              (buildGraphFromEdges [("/a.ts", "/b.ts"); ("/b.ts", "/c.ts"); ("/c.ts", "/a.ts")])
              "/a.ts".
Proof.
  refine (proj1 (transitive_chain _ "/a.ts" "/b.ts" "/c.ts" _ _) _);
    [by left|by right; left|discriminate].
Defined.

(** X25 run: d imports a, so a change of c reaches d through b and a. *)
Lemma affected_by_change_witness :
  "/d.ts" ∈ getAffectedByChange (build Examples.before) ["/c.ts"].
Proof.
  refine (proj2 (proj1 (affected_by_change Examples.before ["/c.ts"] "/d.ts")) _).
  right. exists "/c.ts", ["/a.ts"; "/b.ts"; "/c.ts"]. split; [by left|].
  repeat constructor; apply hasEdge_build; rewrite elem_of_relationEdges_before;
    rewrite !elem_of_cons; tauto.
Defined.

Example impact_of_c :
  getTransitiveDependents (build Examples.before) "/c.ts" = ["/a.ts"; "/b.ts"; "/d.ts"]
  ∧ getTransitiveDependencies (build Examples.before) "/d.ts" = ["/c.ts"; "/a.ts"; "/b.ts"].
Proof. by vm_compute. Qed.

End GraphPropertyFacts.
